(** * ShuntingYard.js: infix to RPN parsing and RPN evaluation

    A shallow embedding of [src/ShuntingYard.js] (class [ShuntingYard]:
    [parse], [resolveRpn], [resolve] and the four predicates), followed by
    the properties of the written specification that were checked against it.

    Conventions of the embedding.
    - A JavaScript string is a [string]: a sequence of 8-bit code units.
    - A JavaScript number is a binary64 [float]; there is one [nan].
    - The tables [this.operators] and [this.functions] are plain objects
      used as maps.  Their own properties are association lists whose order
      is the order in which [Object.keys] enumerates the object, and
      [lookup] finds an own property.  A read [o[k]] is [get]: the own
      property when there is one, else what [Object.prototype] holds under
      that name (for [constructor], [toString] and the like), else
      [undefined].  In the operator loop of [parse] an inherited value
      stands for no operator: it has no precedence, and no comparison with
      it holds.
    - Arrays used as stacks ([stack] in [parse]) have their top at the head
      of the list; arrays read by index ([output], the operand stack of
      [resolveRpn]) are lists in index order. *)

From Stdlib Require Import List String Ascii ZArith Bool Lia Floats.
Import ListNotations.
Open Scope string_scope.

(** ** JavaScript values and the host functions the program calls *)

Inductive Value : Type :=
| VNum (f : float)
| VStr (s : string)
| VUndef.

(** What a thrown exception is: a [SyntaxError] of [parse] with its
    message, or the [TypeError] of the engine for a property read on
    [undefined] (its message is the engine's). *)
Inductive Exception : Type :=
| SyntaxError (message : string)
| TypeError.

Inductive Outcome (A : Type) : Type :=
| Return (a : A)
| Throw (e : Exception).
Arguments Return {A} a.
Arguments Throw {A} e.

Definition bind {A B : Type} (o : Outcome A) (k : A -> Outcome B) : Outcome B :=
  match o with
  | Return a => k a
  | Throw e => Throw e
  end.

(** Truthiness of a variable that holds [undefined], [null] ([None]) or a
    string: only a non-empty string is truthy. *)
Definition truthy (v : option string) : bool :=
  match v with
  | Some (String _ _) => true
  | _ => false
  end.

Module Host.

(** The parts of the ECMAScript library that the default operator table
    reaches and that are not given a definition here: number to string
    conversion, string to number conversion (both only reached when a
    behaviour receives a string operand) and [Math.pow], whose result the
    language leaves implementation-approximated. *)
Record t : Type := Build {
  Number_toString : float -> string;
  StringToNumber : string -> float;
  Math_pow : float -> float -> float
}.

End Host.

(** *** [parseFloat] *)

Definition is_digit (c : ascii) : bool :=
  let n := N_of_ascii c in ((48 <=? n) && (n <=? 57))%N.

Definition digit_value (c : ascii) : Z := Z.of_N (N_of_ascii c) - 48.

(** White space that [parseFloat] skips, among the 8-bit code units. *)
Definition is_white (c : ascii) : bool :=
  let n := N_of_ascii c in
  (((9 <=? n) && (n <=? 13)) || (n =? 32) || (n =? 160))%N.

Fixpoint trim_start (s : string) : string :=
  match s with
  | String c s' => if is_white c then trim_start s' else s
  | EmptyString => s
  end.

(** [read_digits s acc n]: the decimal digits at the start of [s], folded
    into [acc]; returns the value, the number of digits read and the rest. *)
Fixpoint read_digits (s : string) (acc : Z) (n : nat) : Z * nat * string :=
  match s with
  | String c s' =>
      if is_digit c then read_digits s' (10 * acc + digit_value c)%Z (S n)
      else (acc, n, s)
  | EmptyString => (acc, n, s)
  end.

(** The binary64 number nearest to [(-1)^neg * m * 10^e], ties to even. *)
Definition decimal_to_float (neg : bool) (m e : Z) : float :=
  SF2Prim
    match m with
    | Zpos p =>
        if (0 <=? e)%Z
        then binary_round prec emax neg (p * Z.to_pos (10 ^ e)) 0
        else SFdiv prec emax (S754_finite neg p 0)
                             (S754_finite false (Z.to_pos (10 ^ (- e))) 0)
    | _ => S754_zero neg
    end.

(** The exponent part [e[+-]?digits] at the start of [s], if there is one. *)
Definition read_exponent (s : string) : Z :=
  match s with
  | String c s' =>
      if (c =? "e")%char || (c =? "E")%char then
        let '(neg, s'') :=
          match s' with
          | String "-" r => (true, r)
          | String "+" r => (false, r)
          | _ => (false, s')
          end in
        let '(v, n, _) := read_digits s'' 0%Z 0 in
        match n with
        | O => 0%Z
        | S _ => if neg then (- v)%Z else v
        end
      else 0%Z
  | EmptyString => 0%Z
  end.

(** The unsigned part of a [StrDecimalLiteral] at the start of [s]:
    [Infinity], digits with an optional fraction and exponent, or a
    fraction that starts with a dot.  [None] when [s] starts with none. *)
Definition read_unsigned (neg : bool) (s : string) : option float :=
  if String.prefix "Infinity" s then Some (if neg then neg_infinity else infinity)
  else
    let '(ip, ni, r1) := read_digits s 0%Z 0 in
    let whole :=
      match ni with
      | O => None
      | S _ => Some (decimal_to_float neg ip (read_exponent r1))
      end in
    match r1 with
    | String c r2 =>
        if (c =? ".")%char then
          let '(m, nf, r3) := read_digits r2 ip 0 in
          match ni, nf with
          | O, O => None
          | _, _ => Some (decimal_to_float neg m (read_exponent r3 - Z.of_nat nf))
          end
        else whole
    | EmptyString => whole
    end.

(** An optional sign: whether it is a minus, and what follows it. *)
Definition strip_sign (s : string) : bool * string :=
  match s with
  | String c r =>
      if (c =? "-")%char then (true, r)
      else if (c =? "+")%char then (false, r)
      else (false, s)
  | EmptyString => (false, s)
  end.

Definition numeric_prefix (s : string) : option float :=
  let '(neg, body) := strip_sign (trim_start s) in
  read_unsigned neg body.

Definition parseFloat (s : string) : float :=
  match numeric_prefix s with
  | Some f => f
  | None => nan
  end.

(** *** Coercions and arithmetic of the default behaviours *)

Section Coercions.

Variable host : Host.t.

Definition ToNumber (v : Value) : float :=
  match v with
  | VNum f => f
  | VStr s => Host.StringToNumber host s
  | VUndef => nan
  end.

Definition ToString (v : Value) : string :=
  match v with
  | VNum f => Host.Number_toString host f
  | VStr s => s
  | VUndef => "undefined"
  end.

(** [a + b]: concatenation as soon as one side is a string. *)
Definition js_add (a b : Value) : Value :=
  match a, b with
  | VStr _, _ | _, VStr _ => VStr (ToString a ++ ToString b)
  | _, _ => VNum (ToNumber a + ToNumber b)
  end.

Definition js_sub (a b : Value) : Value := VNum (ToNumber a - ToNumber b).
Definition js_mul (a b : Value) : Value := VNum (ToNumber a * ToNumber b).
Definition js_div (a b : Value) : Value := VNum (ToNumber a / ToNumber b).
Definition js_pow (a b : Value) : Value :=
  VNum (Host.Math_pow host (ToNumber a) (ToNumber b)).

End Coercions.

(** The [i]-th formal parameter of a function called through [apply] with
    the argument list [args]: [undefined] when the list is too short. *)
Definition arg (i : nat) (args : list Value) : Value := nth i args VUndef.

(** ** Operator descriptors *)

Inductive Associativity : Type := left | right.

(** Modelled from the spec: [Operator.js], the class of the descriptors, is
    not among the sources.  The fields are the arguments of the constructor
    calls in [ShuntingYard.js] ([new Operator(name, precedence,
    associativity, params, method)]) together with the two fields that
    [resolveRpn] reads ([params], [method]); the three predicates are the
    ones of section 4.1 of the specification under the names that [parse]
    calls.  A behaviour is a function of its argument list. *)
Record Operator : Type := {
  name : string;
  precedence : Z;
  associativity : Associativity;
  params : Z;
  method : list Value -> Value
}.

(** Modelled from the spec: true iff associativity is left. *)
Definition leftAssoc (o : Operator) : bool :=
  match associativity o with
  | left => true
  | right => false
  end.

(** Modelled from the spec: true iff this precedence is less than or equal
    to the other's. *)
Definition lessThenEqual (o other : Operator) : bool :=
  (precedence o <=? precedence other)%Z.

(** Modelled from the spec: true iff this precedence is strictly less than
    the other's. *)
Definition lessThen (o other : Operator) : bool :=
  (precedence o <? precedence other)%Z.

(** ** The instance state *)

Definition Table : Type := list (string * Operator).

Definition keys (o : Table) : list string := map fst o.

Fixpoint lookup (o : Table) (k : string) : option Operator :=
  match o with
  | [] => None
  | (k', v) :: o' => if k' =? k then Some v else lookup o' k
  end.

(** The names of the properties of [Object.prototype], which every plain
    object inherits.  Each holds a function, or for [__proto__] the
    prototype itself: a truthy value that has no [method]. *)
Definition Object_prototype : list string :=
  [ "constructor"; "__defineGetter__"; "__defineSetter__"; "hasOwnProperty";
    "__lookupGetter__"; "__lookupSetter__"; "isPrototypeOf";
    "propertyIsEnumerable"; "toString"; "valueOf"; "__proto__";
    "toLocaleString" ].

Definition inherited (k : string) : bool :=
  existsb (String.eqb k) Object_prototype.

(** What a read [o[k]] of a table gives. *)
Inductive Property : Type :=
| Descriptor (op : Operator)
| Inherited
| Undefined.

Definition get (o : Table) (k : string) : Property :=
  match lookup o k with
  | Some op => Descriptor op
  | None => if inherited k then Inherited else Undefined
  end.

Record ShuntingYard : Type := {
  operators : Table;
  functions : Table;
  parse_raw : bool
}.

(** The constructor called without options (lines 17-27). *)
Definition default (host : Host.t) : ShuntingYard := {|
  operators :=
    [ ("+", {| name := "+"; precedence := 2; associativity := left; params := 2;
               method := fun args => js_add host (arg 0 args) (arg 1 args) |});
      ("-", {| name := "-"; precedence := 2; associativity := left; params := 2;
               method := fun args => js_sub host (arg 0 args) (arg 1 args) |});
      ("*", {| name := "*"; precedence := 3; associativity := left; params := 2;
               method := fun args => js_mul host (arg 0 args) (arg 1 args) |});
      ("/", {| name := "/"; precedence := 3; associativity := left; params := 2;
               method := fun args => js_div host (arg 0 args) (arg 1 args) |});
      ("^", {| name := "^"; precedence := 4; associativity := right; params := 2;
               method := fun args => js_pow host (arg 0 args) (arg 1 args) |}) ];
  functions := [];
  parse_raw := false
|}.

Definition isLeftPara (token : string) : bool := token =? "(".

Definition isRightPara (token : string) : bool := token =? ")".

Definition isOperator (self : ShuntingYard) (token : string) : bool :=
  existsb (String.eqb token) (keys (operators self)).

Definition isFunction (self : ShuntingYard) (token : string) : bool :=
  existsb (String.eqb token) (keys (functions self)).

(** ** [parse] *)

(** The argument of [parse]: a string, or an array of tokens. *)
Inductive Input : Type :=
| Str (str : string)
| Tokens (str : list string).

(** [op_tokens] (lines 52-54): the operator keys followed by the function
    keys. *)
Definition op_tokens (self : ShuntingYard) : list string :=
  keys (operators self) ++ keys (functions self).

(** The [for] loop over [op_tokens] on a string (lines 59-64): the first
    [nit] that the rest of the input starts with. *)
Fixpoint find_symbol (nits : list string) (rest : string) : option string :=
  match nits with
  | [] => None
  | nit :: nits' =>
      if String.prefix nit rest then Some nit else find_symbol nits' rest
  end.

(** The token at the scan position, [rest] being [str.slice(i)], not empty:
    [str[i]] unless the loop found a symbol. *)
Definition next_token (nits : list string) (rest : string) : string :=
  match find_symbol nits rest with
  | Some nit => nit
  | None =>
      match rest with
      | String c _ => String c EmptyString
      | EmptyString => EmptyString
      end
  end.

Fixpoint drop (n : nat) (s : string) : string :=
  match n, s with
  | S n', String _ s' => drop n' s'
  | _, _ => s
  end.

(** The variables of [parse] that live across iterations. *)
Record State : Type := {
  output : list string;
  stack : list string;
  sign : option string;
  lastToken : option string
}.

Definition init : State :=
  {| output := []; stack := []; sign := None; lastToken := None |}.

Inductive TokenClass : Type :=
| LeftPara
| FunctionName
| RightPara
| OperatorSymbol
| Literal.

(** The conditions of the [if / else if] chain (lines 75, 77, 79, 89 and
    105), in its order. *)
Definition classify (self : ShuntingYard) (token : string) : TokenClass :=
  if isLeftPara token then LeftPara
  else if isFunction self token then FunctionName
  else if isRightPara token then RightPara
  else if isOperator self token then OperatorSymbol
  else Literal.

(** The loop of the right parenthesis (lines 81-85): pops until [stack.pop()] is falsy
    ([undefined] on an empty stack, or an empty string) or a left
    parenthesis; [None] when the last [operator] is [undefined]. *)
Fixpoint close_para (self : ShuntingYard) (stack output : list string)
  : option (list string * list string) :=
  match stack with
  | [] => None
  | operator :: stack' =>
      if (operator =? "") || isLeftPara operator then Some (stack', output)
      else close_para self stack'
             (if isFunction self operator then output else output ++ [operator])
  end.

(** The loop of an operator token (lines 94-103). *)
Fixpoint pop_operators (self : ShuntingYard) (token : string)
    (stack output : list string) : list string * list string :=
  match stack with
  | [] => (stack, output)
  | top :: stack' =>
      match lookup (operators self) token, lookup (operators self) top with
      | Some thisOperator, Some operator =>
          if (leftAssoc thisOperator && lessThenEqual thisOperator operator)
             || lessThen thisOperator operator
          then pop_operators self token stack' (output ++ [top])
          else (stack, output)
      | _, _ => (stack, output)
      end
  end.

(** [output[output.length - 1] += token] (line 109).  On an empty array the assignment
    creates the property [-1], which is not an element: the array stays
    empty. *)
Fixpoint append_last (output : list string) (token : string) : list string :=
  match output with
  | [] => []
  | [x] => [x ++ token]
  | x :: output' => x :: append_last output' token
  end.

(** The body of the loop from the [if / else if] chain on (lines 75-112).
    The two [continue] statements leave [lastToken] as it is. *)
Definition dispatch (self : ShuntingYard) (st : State) (token : string)
  : Outcome State :=
  match classify self token with
  | LeftPara | FunctionName =>
      Return {| output := output st; stack := token :: stack st;
                sign := sign st; lastToken := Some token |}
  | RightPara =>
      match close_para self (stack st) (output st) with
      | None => Throw (SyntaxError "Too many closing parenthesis")
      | Some (stack', output') =>
          Return {| output := output'; stack := stack';
                    sign := sign st; lastToken := Some token |}
      end
  | OperatorSymbol =>
      if negb (truthy (lastToken st))
         || match lastToken st with Some t => t =? "(" | None => false end
      then
        Return {| output := output st; stack := stack st;
                  sign := Some token; lastToken := lastToken st |}
      else
        let '(stack', output') := pop_operators self token (stack st) (output st) in
        Return {| output := output'; stack := token :: stack';
                  sign := sign st; lastToken := Some token |}
  | Literal =>
      let output' :=
        if negb (truthy (lastToken st))
           || match lastToken st with
              | Some t => isLeftPara t || isOperator self t
              | None => false
              end
        then (output st ++ [token])%list
        else append_last (output st) token in
      Return {| output := output'; stack := stack st;
                sign := sign st; lastToken := Some token |}
  end.

(** The body of the loop after the scan (lines 68-112): a single space is
    skipped, a pending sign is put in front of the token. *)
Definition step (self : ShuntingYard) (st : State) (token : string)
  : Outcome State :=
  if token =? " " then Return st
  else
    match sign st with
    | Some (String c s) =>
        dispatch self {| output := output st; stack := stack st;
                         sign := None; lastToken := lastToken st |}
                 (String c s ++ token)
    | _ => dispatch self st token
    end.

(** The token that the chain sees: [sign + token] when a sign is pending. *)
Definition current_token (st : State) (token : string) : string :=
  match sign st with
  | Some (String c s) => String c s ++ token
  | _ => token
  end.

(** The loop that empties the stack once the input is consumed (lines
    115-121). *)
Fixpoint drain (stack output : list string) : Outcome (list string) :=
  match stack with
  | [] => Return output
  | token :: stack' =>
      if isLeftPara token then Throw (SyntaxError "Too many opening parenthesis")
      else drain stack' (output ++ [token])
  end.

Definition finish (st : State) : Outcome (list string) :=
  drain (stack st) (output st).

(** The main loop on an array of tokens: one element per iteration. *)
Fixpoint parse_tokens (self : ShuntingYard) (str : list string) (st : State)
  : Outcome (list string) :=
  match str with
  | [] => finish st
  | token :: str' => bind (step self st token) (parse_tokens self str')
  end.

(** The main loop on a string, [rest] being [str.slice(i)].  An iteration
    that matches an empty symbol does not advance [i]; [fuel] bounds the
    number of iterations and [None] is a loop that has not ended. *)
Fixpoint parse_string (fuel : nat) (self : ShuntingYard) (rest : string)
    (st : State) : option (Outcome (list string)) :=
  match rest with
  | EmptyString => Some (finish st)
  | String _ _ =>
      match fuel with
      | O => None
      | S fuel' =>
          let token := next_token (op_tokens self) rest in
          match step self st token with
          | Throw e => Some (Throw e)
          | Return st' =>
              parse_string fuel' self (drop (String.length token) rest) st'
          end
      end
  end.

(** A string of [n] code units is consumed in at most [n] iterations unless
    an iteration stands still, so [n] is all the fuel a run that ends can
    use (see [parse_string_fuel]). *)
Definition parse (self : ShuntingYard) (str : Input)
  : option (Outcome (list string)) :=
  match str with
  | Str s => parse_string (String.length s) self s init
  | Tokens l => Some (parse_tokens self l init)
  end.

(** The iterations of the main loop on an array of tokens, without the
    final loop: the state after the last element. *)
Fixpoint run (self : ShuntingYard) (str : list string) (st : State)
  : Outcome State :=
  match str with
  | [] => Return st
  | token :: str' => bind (step self st token) (run self str')
  end.

(** ** [resolveRpn] and [resolve] *)

(** [stack.splice(-n)]: what stays in the array and what is removed. *)
Definition splice_neg (n : Z) (stack : list Value) : list Value * list Value :=
  let len := Z.of_nat (List.length stack) in
  let start := (- n)%Z in
  let actualStart :=
    if (start <? 0)%Z then Z.max (len + start) 0 else Z.min start len in
  (firstn (Z.to_nat actualStart) stack, skipn (Z.to_nat actualStart) stack).

(** [this.operators[t] || this.functions[t]] (line 130): the first of the
    two reads that is truthy. *)
Definition found (self : ShuntingYard) (t : string) : Property :=
  match get (operators self) t with
  | Undefined => get (functions self) t
  | p => p
  end.

(** The descriptor that line 130 leaves in [op], when [op] is one. *)
Definition descriptor (self : ShuntingYard) (t : string) : option Operator :=
  match found self t with
  | Descriptor op => Some op
  | _ => None
  end.

(** [this.parse_raw ? t : parseFloat(t)] *)
Definition literal (self : ShuntingYard) (t : string) : Value :=
  if parse_raw self then VStr t else VNum (parseFloat t).

(** One iteration of the loop of [resolveRpn] (lines 130-135).  An
    inherited value is truthy and has no [method]: [op.method.apply]
    throws. *)
Definition rpn_step (self : ShuntingYard) (stack : list Value) (t : string)
  : Outcome (list Value) :=
  match found self t with
  | Descriptor op =>
      let '(stack', args) := splice_neg (params op) stack in
      Return (stack' ++ [method op args])%list
  | Inherited => Throw TypeError
  | Undefined => Return (stack ++ [literal self t])%list
  end.

Fixpoint rpn_run (self : ShuntingYard) (arr : list string) (stack : list Value)
  : Outcome (list Value) :=
  match arr with
  | [] => Return stack
  | t :: arr' => bind (rpn_step self stack t) (rpn_run self arr')
  end.

(** [stack[0]] is [undefined] on an empty array. *)
Definition resolveRpn (self : ShuntingYard) (arr : list string)
  : Outcome Value :=
  bind (rpn_run self arr []) (fun stack => Return (nth 0 stack VUndef)).

Definition resolve (self : ShuntingYard) (str : Input) : option (Outcome Value) :=
  match parse self str with
  | Some (Return arr) => Some (resolveRpn self arr)
  | Some (Throw e) => Some (Throw e)
  | None => None
  end.

(** ** The scan of a string taken alone *)

(** The tokens that the main loop reads off a string: the same scan as in
    [parse_string], without the parser. *)
Fixpoint scan (fuel : nat) (nits : list string) (rest : string)
  : option (list string) :=
  match rest with
  | EmptyString => Some []
  | String _ _ =>
      match fuel with
      | O => None
      | S fuel' =>
          let token := next_token nits rest in
          match scan fuel' nits (drop (String.length token) rest) with
          | Some l => Some (token :: l)
          | None => None
          end
      end
  end.

(** ** The words of the specification, for comparison *)

(** Section 4.3, operator token: "its top is a registered operator, and
    either (this operator is left-associative AND its precedence <= top's
    precedence) OR (this operator's precedence < top's precedence)". *)
Definition yields_to (self : ShuntingYard) (token top : string) : Prop :=
  exists thisOperator operator,
    lookup (operators self) token = Some thisOperator /\
    lookup (operators self) top = Some operator /\
    ((associativity thisOperator = left /\
      (precedence thisOperator <= precedence operator)%Z)
     \/ (precedence thisOperator < precedence operator)%Z).

(** Section 7: "a right parenthesis encountered with no matching left
    parenthesis reachable on the operator stack", at some element [t] of
    the sequence, the elements before it having been read. *)
Definition unmatched_closing (self : ShuntingYard) (l : list string) : Prop :=
  exists l1 t l2 st,
    l = (l1 ++ t :: l2)%list /\
    run self l1 init = Return st /\
    t <> " " /\
    classify self (current_token st t) = RightPara /\
    ~ In "(" (stack st).

(** Section 7: "one or more left parentheses remain on the operator stack
    after the input is exhausted". *)
Definition unmatched_opening (self : ShuntingYard) (l : list string) : Prop :=
  exists st, run self l init = Return st /\ In "(" (stack st).

(** Section 4.2, step 1: "among all registered operator and function
    symbols, find the longest symbol that is a prefix of the remaining
    input". *)
Definition longest_symbol (nits : list string) (rest token : string) : Prop :=
  In token nits /\ String.prefix token rest = true /\
  forall nit, In nit nits -> String.prefix nit rest = true ->
              String.length nit <= String.length token.

(** Section 4.2, input: the tokenized sequence "skips symbol-matching and
    whitespace handling, treating each element as one opaque token": the
    loop body without the test for a single space. *)
Definition step_opaque (self : ShuntingYard) (st : State) (token : string)
  : Outcome State :=
  match sign st with
  | Some (String c s) =>
      dispatch self {| output := output st; stack := stack st;
                       sign := None; lastToken := lastToken st |}
               (String c s ++ token)
  | _ => dispatch self st token
  end.

Fixpoint parse_tokens_opaque (self : ShuntingYard) (str : list string)
    (st : State) : Outcome (list string) :=
  match str with
  | [] => finish st
  | token :: str' => bind (step_opaque self st token) (parse_tokens_opaque self str')
  end.

(** The first non-blank text of a token can begin a decimal literal: after
    an optional sign, [Infinity], a digit, or a dot and a digit. *)
Definition begins_literal (s : string) : bool :=
  let '(_, body) := strip_sign (trim_start s) in
  String.prefix "Infinity" body ||
  match body with
  | String c r =>
      is_digit c ||
      ((c =? ".")%char &&
       match r with
       | String d _ => is_digit d
       | EmptyString => false
       end)
  | EmptyString => false
  end.

(** ** Instances used in examples *)

(** The value of a float that is a natural number. *)
Definition float_to_nat (f : float) : option nat :=
  match Prim2SF f with
  | S754_zero _ => Some 0
  | S754_finite false m e =>
      match e with
      | Z0 => Some (Pos.to_nat m)
      | Zpos k => Some (Pos.to_nat m * 2 ^ Pos.to_nat k)
      | Zneg k =>
          if (Zpos m mod 2 ^ Zpos k =? 0)%Z
          then Some (Z.to_nat (Zpos m / 2 ^ Zpos k)) else None
      end
  | _ => None
  end.

Fixpoint power (a : float) (n : nat) : float :=
  match n with
  | O => 1%float
  | S n' => (a * power a n')%float
  end.

(** A host whose [Math.pow] multiplies out natural exponents; the two
    conversions are not exercised. *)
Definition plain_host : Host.t := {|
  Host.Number_toString := fun _ => "";
  Host.StringToNumber := parseFloat;
  Host.Math_pow := fun a b =>
    match float_to_nat b with
    | Some n => power a n
    | None => nan
    end
|}.

(** Two comparison operators, the shorter one registered first. *)
Definition comparisons : ShuntingYard := {|
  operators :=
    [ ("<", {| name := "<"; precedence := 1; associativity := left; params := 2;
               method := fun args => VUndef |});
      ("<=", {| name := "<="; precedence := 1; associativity := left; params := 2;
                method := fun args => VUndef |}) ];
  functions := [];
  parse_raw := false
|}.

(** The default operators and one function, [sq], that squares. *)
Definition with_sq (host : Host.t) : ShuntingYard := {|
  operators := operators (default host);
  functions :=
    [ ("sq", {| name := "sq"; precedence := 0; associativity := left; params := 1;
                method := fun args => js_mul host (arg 0 args) (arg 0 args) |}) ];
  parse_raw := false
|}.

(** One operator of arity 2 whose behaviour returns the number of
    arguments it was called with ([arguments.length]). *)
Definition counting : ShuntingYard := {|
  operators :=
    [ ("#", {| name := "#"; precedence := 1; associativity := left; params := 2;
               method := fun args =>
                 VNum (PrimFloat.of_uint63 (Uint63.of_Z (Z.of_nat (List.length args)))) |}) ];
  functions := [];
  parse_raw := false
|}.

(** ** Registration: [addOperator] and [addFunction] *)

Fixpoint all_digits (s : string) : bool :=
  match s with
  | String c s' => is_digit c && all_digits s'
  | EmptyString => true
  end.

(** The number that a key stands for when it is an array index: a decimal
    numeral without a leading zero, at most [2^32 - 2].  These are the keys
    that [Object.keys] lists first, in ascending order, before the other keys
    in the order of their creation. *)
Definition array_index (k : string) : option Z :=
  match k with
  | String c r =>
      if all_digits k && (negb (c =? "0")%char || (r =? "")) then
        let '(v, _, _) := read_digits k 0%Z 0 in
        if (v <=? 4294967294)%Z then Some v else None
      else None
  | EmptyString => None
  end.

(** [o[k] = v] where [k] is an own key of [o]: the value changes, the place
    of the key stays. *)
Fixpoint replace (o : Table) (k : string) (v : Operator) : Table :=
  match o with
  | [] => []
  | (k', v') :: o' =>
      if k' =? k then (k', v) :: o' else (k', v') :: replace o' k v
  end.

(** [o[k] = v] where [k] is a new key and the array index [n]: the key goes
    after the array indices below [n]. *)
Fixpoint insert_index (o : Table) (n : Z) (k : string) (v : Operator) : Table :=
  match o with
  | [] => [(k, v)]
  | (k', v') :: o' =>
      match array_index k' with
      | Some n' =>
          if (n' <? n)%Z then (k', v') :: insert_index o' n k v
          else (k, v) :: o
      | None => (k, v) :: o
      end
  end.

(** [o[k] = v] on a table.  The key [__proto__] names the accessor of the
    prototype: assigning to it creates no own property. *)
Definition assign (o : Table) (k : string) (v : Operator) : Table :=
  if k =? "__proto__" then o
  else
    match lookup o k with
    | Some _ => replace o k v
    | None =>
        match array_index k with
        | Some n => insert_index o n k v
        | None => (o ++ [(k, v)])%list
        end
    end.

(** [addOperator] (lines 36-41) updates the instance; the result is the
    instance after the call and the lines written by [console.warn].  The
    test [this.operators[key]] is a read of the table: an inherited value
    is truthy too. *)
Definition addOperator (self : ShuntingYard) (key : string) (operator : Operator)
  : ShuntingYard * list string :=
  ({| operators := assign (operators self) key operator;
      functions := functions self;
      parse_raw := parse_raw self |},
   match get (operators self) key with
   | Undefined => []
   | _ => ["Operator " ++ key ++ " already exists"]
   end).

(** [addFunction] (lines 29-34). *)
Definition addFunction (self : ShuntingYard) (key : string) (func : Operator)
  : ShuntingYard * list string :=
  ({| operators := operators self;
      functions := assign (functions self) key func;
      parse_raw := parse_raw self |},
   match get (functions self) key with
   | Undefined => []
   | _ => ["Function " ++ key ++ " already exists"]
   end).

(** ** Vocabulary of the further properties *)

(** The code unit [c] occurs in [s]. *)
Definition occurs (c : ascii) (s : string) : Prop :=
  In c (list_ascii_of_string s).

(** No symbol of [nits] is empty or begins with a code unit of [s]: the
    scan finds no symbol anywhere in [s]. *)
Definition symbol_free (nits : list string) (s : string) : Prop :=
  forall nit, In nit nits ->
    match nit with
    | String d _ => ~ occurs d s
    | EmptyString => False
    end.

Fixpoint without_spaces (s : string) : string :=
  match s with
  | String c s' =>
      if (c =? " ")%char then without_spaces s' else String c (without_spaces s')
  | EmptyString => EmptyString
  end.

(** The state of a run that started after one more left parenthesis: the
    same but for that parenthesis at the bottom of the stack, which also
    stands for the unset [lastToken] of the start. *)
Definition inside_para (st st' : State) : Prop :=
  output st' = output st /\
  stack st' = (stack st ++ ["("])%list /\
  sign st' = sign st /\
  (lastToken st' = lastToken st \/
   (lastToken st = None /\ lastToken st' = Some "(")).

Definition is_number (v : Value) : Prop :=
  match v with
  | VNum _ => True
  | _ => False
  end.

(** What holds of the pending sign and of the operator stack as long as no
    left parenthesis has been read. *)
Definition no_para_read (self : ShuntingYard) (st : State) : Prop :=
  (forall s, sign st = Some s -> classify self s = OperatorSymbol) /\
  ~ In "(" (stack st).

(** No parenthesis among the entries of the output, no right parenthesis on
    the operator stack. *)
Definition para_free (st : State) : Prop :=
  ~ In "(" (output st) /\ ~ In ")" (output st) /\ ~ In ")" (stack st).

(** A token that stands for an operand: a literal that is neither empty nor
    a single space. *)
Definition operand (self : ShuntingYard) (t : string) : Prop :=
  classify self t = Literal /\ t <> "" /\ t <> " ".

(** A token that the chain takes for the operator of descriptor [d]. *)
Definition operator_token (self : ShuntingYard) (t : string) (d : Operator)
  : Prop :=
  classify self t = OperatorSymbol /\ t <> " " /\
  lookup (operators self) t = Some d.

(** * Properties *)

Local Open Scope list_scope.

(** ** Tables and token classes *)

Lemma existsb_eqb_In (t : string) (l : list string) :
  existsb (String.eqb t) l = true <-> In t l.
Proof.
  rewrite existsb_exists. split.
  - intros [x [Hin Heq]]. apply String.eqb_eq in Heq. now subst.
  - intros Hin. exists t. split; [assumption | apply String.eqb_refl].
Qed.

Lemma lookup_In_keys (o : Table) (k : string) :
  In k (keys o) <-> exists v, lookup o k = Some v.
Proof.
  induction o as [| [k' v'] o IH]; simpl.
  - split; [contradiction | intros [v Hv]; discriminate].
  - destruct (String.eqb_spec k' k) as [-> | Hne].
    + split; [intros _; now exists v' | intros _; now left].
    + rewrite <- IH. split; [intros [Heq | Hin] | intros Hin]; tauto.
Qed.

Lemma isOperator_lookup (self : ShuntingYard) (t : string) :
  isOperator self t = true <-> exists op, lookup (operators self) t = Some op.
Proof.
  unfold isOperator. rewrite existsb_eqb_In. apply lookup_In_keys.
Qed.

Lemma classify_OperatorSymbol (self : ShuntingYard) (t : string) :
  classify self t = OperatorSymbol <->
  isLeftPara t = false /\ isFunction self t = false /\
  isRightPara t = false /\ isOperator self t = true.
Proof.
  unfold classify.
  destruct (isLeftPara t), (isFunction self t), (isRightPara t),
    (isOperator self t); split; intros H; try discriminate; try tauto;
    try (destruct H as (? & ? & ? & ?); discriminate).
Qed.

(** ** The operator loop *)

Lemma loop_condition (thisOperator operator : Operator) :
  (leftAssoc thisOperator && lessThenEqual thisOperator operator)
    || lessThen thisOperator operator = true <->
  (associativity thisOperator = left /\
     (precedence thisOperator <= precedence operator)%Z)
  \/ (precedence thisOperator < precedence operator)%Z.
Proof.
  unfold leftAssoc, lessThenEqual, lessThen.
  rewrite orb_true_iff, andb_true_iff, Z.leb_le, Z.ltb_lt.
  destruct (associativity thisOperator); split; intros [[? ?] | ?]; auto;
    discriminate.
Qed.

Lemma pop_operators_spec (self : ShuntingYard) (token : string) :
  forall stk out,
  exists popped rest,
    stk = popped ++ rest /\
    Forall (yields_to self token) popped /\
    match rest with
    | [] => True
    | top :: _ => ~ yields_to self token top
    end /\
    pop_operators self token stk out = (rest, out ++ popped).
Proof.
  intros stk. induction stk as [| top stack' IH]; intros output.
  - exists [], []. simpl. rewrite app_nil_r. auto.
  - simpl.
    destruct (lookup (operators self) token) as [thisOperator |] eqn:Hthis;
      [destruct (lookup (operators self) top) as [operator |] eqn:Htop |].
    + destruct ((leftAssoc thisOperator && lessThenEqual thisOperator operator)
                || lessThen thisOperator operator) eqn:Hcond.
      * destruct (IH (output ++ [top])) as (popped & rest & Hst & Hall & Hrest & Hrun).
        exists (top :: popped), rest. repeat split; trivial.
        -- simpl. now rewrite Hst.
        -- constructor; [| assumption].
           exists thisOperator, operator. repeat split; trivial.
           now apply loop_condition.
        -- rewrite Hrun, <- app_assoc. reflexivity.
      * exists [], (top :: stack'). rewrite app_nil_r. repeat split; auto.
        intros (o1 & o2 & H1 & H2 & Hc).
        rewrite Hthis in H1. rewrite Htop in H2.
        injection H1 as <-. injection H2 as <-.
        apply loop_condition in Hc. congruence.
    + exists [], (top :: stack'). rewrite app_nil_r. repeat split; auto.
      intros (o1 & o2 & _ & H2 & _). congruence.
    + exists [], (top :: stack'). rewrite app_nil_r. repeat split; auto.
      intros (o1 & o2 & H1 & _). congruence.
Qed.

(** C1.  An operator token that is not taken as a sign (the last token is
    set and is not a left parenthesis) pops the operator stack to the output
    while the top is a registered operator to which the incoming operator
    yields (it is left-associative with precedence at most the top's, or its
    precedence is strictly less), then is pushed.  With the default table
    [parse("3+4*2")] is [["3","4","2","*","+"]] and [resolve("3+4*2")] is
    [11]. *)
Theorem operator_token_pops_then_pushes :
  (forall self st token,
      classify self token = OperatorSymbol ->
      truthy (lastToken st) = true ->
      lastToken st <> Some "(" ->
      exists popped rest,
        stack st = popped ++ rest /\
        Forall (yields_to self token) popped /\
        match rest with
        | [] => True
        | top :: _ => ~ yields_to self token top
        end /\
        dispatch self st token =
          Return {| output := output st ++ popped; stack := token :: rest;
                    sign := sign st; lastToken := Some token |})
  /\ (forall host,
        parse (default host) (Str "3+4*2")
        = Some (Return ["3"; "4"; "2"; "*"; "+"]))
  /\ (forall host,
        resolve (default host) (Str "3+4*2") = Some (Return (VNum 11))).
Proof.
  split; [| split; intros host; reflexivity].
  intros self st token Hclass Hlast Hpara.
  destruct (pop_operators_spec self token (stack st) (output st))
    as (popped & rest & Hst & Hall & Hrest & Hrun).
  exists popped, rest. repeat split; trivial.
  unfold dispatch. rewrite Hclass, Hlast. simpl.
  destruct (lastToken st) as [t |] eqn:Ht; [| discriminate].
  destruct (String.eqb_spec t "(") as [-> | _]; [congruence |].
  now rewrite Hrun.
Qed.

Lemma operator_token_pops_then_pushes_witness :
  exists popped rest,
    ["*"; "+"; "("] = popped ++ rest /\
    Forall (yields_to (default plain_host) "-") popped /\
    match rest with
    | [] => True
    | top :: _ => ~ yields_to (default plain_host) "-" top
    end /\
    dispatch (default plain_host)
      {| output := ["1"; "2"; "3"]; stack := ["*"; "+"; "("];
         sign := None; lastToken := Some "3" |} "-"
    = Return {| output := ["1"; "2"; "3"] ++ popped; stack := "-" :: rest;
                sign := None; lastToken := Some "-" |}.
Proof.
  apply (proj1 operator_token_pops_then_pushes (default plain_host)
           {| output := ["1"; "2"; "3"]; stack := ["*"; "+"; "("];
              sign := None; lastToken := Some "3" |} "-").
  - reflexivity.
  - reflexivity.
  - discriminate.
Defined.

(** ** The scan for a symbol *)

Lemma find_symbol_first (rest : string) :
  forall before nit after,
    Forall (fun n => String.prefix n rest = false) before ->
    String.prefix nit rest = true ->
    find_symbol (before ++ nit :: after) rest = Some nit.
Proof.
  induction before as [| b before IH]; intros nit after Hbefore Hnit; simpl.
  - now rewrite Hnit.
  - inversion Hbefore as [| ? ? Hb Hrest]; subst.
    rewrite Hb. now apply IH.
Qed.

Lemma find_symbol_none (rest : string) :
  forall nits,
    Forall (fun n => String.prefix n rest = false) nits ->
    find_symbol nits rest = None.
Proof.
  induction nits as [| n nits IH]; intros Hall; simpl; [reflexivity |].
  inversion Hall as [| ? ? Hn Hrest]; subst.
  rewrite Hn. now apply IH.
Qed.

(** C2, as the specification states it, fails: with ["<"] registered before
    ["<="], the token at ["<=2"] is ["<"] although ["<="] is a registered
    symbol and a longer prefix. *)
Lemma longest_symbol_not_taken :
  In "<=" (op_tokens comparisons) /\
  String.prefix "<=" "<=2" = true /\
  next_token (op_tokens comparisons) "<=2" = "<" /\
  ~ longest_symbol (op_tokens comparisons) "<=2"
      (next_token (op_tokens comparisons) "<=2") /\
  parse comparisons (Str "1<=2") = Some (Return ["1"; "=2"; "<"]).
Proof.
  split; [simpl; auto |].
  split; [reflexivity |].
  split; [reflexivity |].
  split; [| reflexivity].
  intros (_ & _ & Hmax).
  specialize (Hmax "<=" (or_intror (or_introl eq_refl)) eq_refl).
  simpl in Hmax. lia.
Qed.

(** C2, amended.  At every scan position of a string the current token is
    the first symbol, in the order of the operator keys followed by the
    function keys, that the remaining input starts with; when no symbol is a
    prefix, it is the single character at that position.  The main loop
    takes its token from this scan. *)
Theorem next_token_first_symbol :
  forall nits c rest',
    (forall before nit after,
        nits = before ++ nit :: after ->
        Forall (fun n => String.prefix n (String c rest') = false) before ->
        String.prefix nit (String c rest') = true ->
        next_token nits (String c rest') = nit)
    /\ (Forall (fun n => String.prefix n (String c rest') = false) nits ->
        next_token nits (String c rest') = String c EmptyString)
    /\ (forall fuel self st,
          nits = op_tokens self ->
          parse_string (S fuel) self (String c rest') st =
          match step self st (next_token nits (String c rest')) with
          | Throw e => Some (Throw e)
          | Return st' =>
              parse_string fuel self
                (drop (String.length (next_token nits (String c rest')))
                      (String c rest')) st'
          end).
Proof.
  intros nits c rest'. split; [| split].
  - intros before nit after -> Hbefore Hnit. unfold next_token.
    now rewrite (find_symbol_first _ before nit after Hbefore Hnit).
  - intros Hnone. unfold next_token. now rewrite find_symbol_none.
  - intros fuel self st ->. reflexivity.
Qed.

Lemma next_token_first_symbol_witness :
  next_token ["<"; "<="] "<=2" = "<" /\
  next_token ["+"; "-"] "7+1" = "7".
Proof.
  split.
  - apply (proj1 (next_token_first_symbol ["<"; "<="] "<" "=2") [] "<" ["<="]).
    + reflexivity.
    + constructor.
    + reflexivity.
  - apply (proj1 (proj2 (next_token_first_symbol ["+"; "-"] "7" "+1"))).
    repeat constructor.
Defined.

(** ** Function markers *)

Lemma close_para_spec (self : ShuntingYard) :
  forall stk out stk' out',
    close_para self stk out = Some (stk', out') ->
    exists popped marker,
      stk = popped ++ marker :: stk' /\
      Forall (fun t => t <> "" /\ t <> "(") popped /\
      (marker = "" \/ marker = "(") /\
      out' = out ++ filter (fun t => negb (isFunction self t)) popped.
Proof.
  induction stk as [| operator stk IH]; intros out stk' out' H; simpl in H.
  - discriminate.
  - destruct ((operator =? "") || isLeftPara operator) eqn:Hstop.
    + injection H as <- <-. exists [], operator. simpl.
      rewrite app_nil_r. repeat split; trivial.
      apply orb_true_iff in Hstop. unfold isLeftPara in Hstop.
      destruct Hstop as [E | E]; apply String.eqb_eq in E; auto.
    + apply IH in H. destruct H as (popped & marker & -> & Hall & Hm & ->).
      exists (operator :: popped), marker. repeat split; trivial.
      * constructor; [| assumption].
        apply orb_false_iff in Hstop. unfold isLeftPara in Hstop.
        destruct Hstop as [E1 E2].
        apply String.eqb_neq in E1. apply String.eqb_neq in E2. auto.
      * simpl. destruct (isFunction self operator); simpl;
          [reflexivity | now rewrite <- app_assoc].
Qed.

Lemma drain_all :
  forall stk out, ~ In "(" stk -> drain stk out = Return (out ++ stk).
Proof.
  induction stk as [| t stk IH]; intros out Hno; simpl.
  - now rewrite app_nil_r.
  - unfold isLeftPara. destruct (String.eqb_spec t "(") as [-> | _].
    + exfalso. apply Hno. now left.
    + rewrite IH; [now rewrite <- app_assoc |].
      intros Hin. apply Hno. now right.
Qed.

(** C3, as the specification states it, fails: a function marker is
    emitted.  With [sq] registered as a function, [parse("sq(3)")] ends with
    the token ["sq"]. *)
Lemma function_marker_emitted :
  exists out,
    parse (with_sq plain_host) (Str "sq(3)") = Some (Return out) /\
    isFunction (with_sq plain_host) "sq" = true /\
    In "sq" out.
Proof.
  exists ["3"; "sq"]. repeat split; simpl; auto.
Qed.

(** C3, amended.  A function-name token is pushed onto the operator stack
    and nothing is emitted at that point; a function marker popped while
    handling a right parenthesis is discarded, only the other popped entries
    are emitted; a function marker that is still on the stack when the input
    is exhausted is emitted by the final loop with the rest of the stack. *)
Theorem function_marker_pushed_dropped_or_drained :
  (forall self st token,
      classify self token = FunctionName ->
      dispatch self st token =
        Return {| output := output st; stack := token :: stack st;
                  sign := sign st; lastToken := Some token |})
  /\ (forall self stk out stk' out',
        close_para self stk out = Some (stk', out') ->
        exists popped marker,
          stk = popped ++ marker :: stk' /\
          out' = out ++ filter (fun t => negb (isFunction self t)) popped)
  /\ (forall stk out, ~ In "(" stk -> drain stk out = Return (out ++ stk))
  /\ (forall host,
        parse (with_sq host) (Str "sq(3)") = Some (Return ["3"; "sq"]))
  /\ (forall host,
        parse (with_sq host) (Str "(sq(3))") = Some (Return ["3"])).
Proof.
  split; [| split; [| split; [| split]]].
  - intros self st token Hclass. unfold dispatch. now rewrite Hclass.
  - intros self stk out stk' out' H.
    destruct (close_para_spec self stk out stk' out' H)
      as (popped & marker & Hstk & _ & _ & Hout).
    now exists popped, marker.
  - apply drain_all.
  - intros host. reflexivity.
  - intros host. reflexivity.
Qed.

Lemma function_marker_pushed_dropped_or_drained_witness :
  dispatch (with_sq plain_host) init "sq"
  = Return {| output := []; stack := ["sq"]; sign := None;
              lastToken := Some "sq" |}
  /\ (exists popped marker,
         ["+"; "sq"; "("; "*"] = popped ++ marker :: ["*"] /\
         ["1"; "2"; "+"] =
           ["1"; "2"] ++
           filter (fun t => negb (isFunction (with_sq plain_host) t)) popped)
  /\ drain ["+"; "sq"] ["1"; "2"] = Return (["1"; "2"] ++ ["+"; "sq"]).
Proof.
  split; [| split].
  - apply (proj1 function_marker_pushed_dropped_or_drained
             (with_sq plain_host) init "sq").
    reflexivity.
  - apply (proj1 (proj2 function_marker_pushed_dropped_or_drained)
             (with_sq plain_host) ["+"; "sq"; "("; "*"] ["1"; "2"]).
    reflexivity.
  - apply (proj1 (proj2 (proj2 function_marker_pushed_dropped_or_drained))).
    simpl. intros [H | [H | []]]; discriminate.
Defined.

(** ** The evaluator *)

Lemma descriptor_Some (self : ShuntingYard) (t : string) (op : Operator) :
  descriptor self t = Some op <-> found self t = Descriptor op.
Proof.
  unfold descriptor. destruct (found self t); split; congruence.
Qed.

Lemma found_own_operator (self : ShuntingYard) (t : string) (op : Operator) :
  lookup (operators self) t = Some op -> found self t = Descriptor op.
Proof.
  intros H. unfold found, get. now rewrite H.
Qed.

Lemma lookup_unregistered (o : Table) (t : string) :
  existsb (String.eqb t) (keys o) = false -> lookup o t = None.
Proof.
  intros H. destruct (lookup o t) as [op |] eqn:E; [| reflexivity].
  assert (Hin : In t (keys o)) by (apply lookup_In_keys; eauto).
  apply existsb_eqb_In in Hin. congruence.
Qed.

(** What line 130 finds for a token that is in neither table. *)
Lemma found_unregistered (self : ShuntingYard) (t : string) :
  isOperator self t = false ->
  isFunction self t = false ->
  found self t = if inherited t then Inherited else Undefined.
Proof.
  unfold isOperator, isFunction, found, get. intros Ho Hf.
  rewrite (lookup_unregistered _ _ Ho), (lookup_unregistered _ _ Hf).
  now destruct (inherited t).
Qed.


Lemma splice_neg_short (n : Z) (stk : list Value) :
  (Z.of_nat (List.length stk) < n)%Z ->
  splice_neg n stk = ([], stk).
Proof.
  intros Hn. unfold splice_neg.
  destruct (Z.ltb_spec (- n) 0) as [_ | Hge]; [| lia].
  rewrite Z.max_r by lia. reflexivity.
Qed.



(** C8, as the specification states it, fails: an operator of arity 2 read
    with one operand on the stack is applied to that one operand and its
    result is pushed; nothing fails.  The behaviour of [counting] reports
    the number of arguments it received, and the default [+] adds
    [undefined] to its operand. *)
Lemma short_stack_applies_behaviour :
  (exists op,
      descriptor counting "#" = Some op /\
      (Z.of_nat (List.length [VNum 7]) < params op)%Z /\
      rpn_step counting [VNum 7] "#" = Return [method op [VNum 7]] /\
      method op [VNum 7] = VNum 1) /\
  resolveRpn counting ["7"; "#"] = Return (VNum 1) /\
  resolveRpn (default plain_host) ["3"; "+"] = Return (VNum nan).
Proof.
  split; [| split; reflexivity].
  eexists. split; [reflexivity |]. repeat split.
Qed.

(** C8, amended.  When the arity of a descriptor exceeds the number of
    operands on the stack, every operand that is there is removed and the
    behaviour is applied to that shorter argument list (its missing
    parameters are [undefined]); its result is pushed alone, and
    [resolveRpn] raises no error of its own. *)
Theorem short_stack_passes_all_operands :
  forall self stk t op,
    descriptor self t = Some op ->
    (Z.of_nat (List.length stk) < params op)%Z ->
    rpn_step self stk t = Return [method op stk]
    /\ (forall i, List.length stk <= i -> arg i stk = VUndef).
Proof.
  intros self stk t op Hop Hn. apply descriptor_Some in Hop. split.
  - unfold rpn_step. now rewrite Hop, splice_neg_short.
  - intros i Hi. unfold arg. now apply nth_overflow.
Qed.

Lemma short_stack_passes_all_operands_witness :
  rpn_step (default plain_host) [VNum 3] "+"
  = Return [js_add plain_host (arg 0 [VNum 3]) (arg 1 [VNum 3])]
  /\ (forall i, List.length [VNum 3] <= i -> arg i [VNum 3] = VUndef).
Proof.
  apply (short_stack_passes_all_operands (default plain_host) [VNum 3] "+"
           {| name := "+"; precedence := 2; associativity := left;
              params := 2;
              method := fun args =>
                js_add plain_host (arg 0 args) (arg 1 args) |}).
  - reflexivity.
  - simpl. lia.
Defined.

(** ** Literals *)

Lemma read_digits_count :
  forall s acc n v k r, read_digits s acc n = (v, k, r) -> n <= k.
Proof.
  induction s as [| c s IH]; intros acc n v k r H; simpl in H.
  - injection H as _ <- _. lia.
  - destruct (is_digit c).
    + apply IH in H. lia.
    + injection H as _ <- _. lia.
Qed.

Lemma read_unsigned_None (neg : bool) (body : string) :
  read_unsigned neg body = None <->
  String.prefix "Infinity" body ||
  match body with
  | String c r =>
      is_digit c ||
      ((c =? ".")%char &&
       match r with
       | String d _ => is_digit d
       | EmptyString => false
       end)
  | EmptyString => false
  end = false.
Proof.
  unfold read_unsigned.
  destruct (String.prefix "Infinity" body); [split; discriminate |].
  rewrite orb_false_l.
  destruct body as [| c r]; [simpl; tauto |].
  destruct (is_digit c) eqn:Hc.
  - rewrite orb_true_l. split; [| discriminate].
    simpl. rewrite Hc.
    destruct (read_digits r _ 1) as [[ip ni] r1] eqn:Hd.
    apply read_digits_count in Hd.
    destruct ni as [| ni]; [lia |].
    destruct r1 as [| c' r2]; [discriminate |].
    destruct (c' =? ".")%char; [| discriminate].
    destruct (read_digits r2 ip 0) as [[m nf] r3]. discriminate.
  - rewrite orb_false_l. simpl. rewrite Hc.
    destruct (c =? ".")%char; [| simpl; tauto].
    rewrite andb_true_l.
    destruct r as [| d r']; [simpl; tauto |].
    simpl. destruct (is_digit d) eqn:Hd.
    + destruct (read_digits r' _ 1) as [[m nf] r3] eqn:Hr.
      apply read_digits_count in Hr.
      destruct nf as [| nf]; [lia |]. split; discriminate.
    + tauto.
Qed.

Lemma numeric_prefix_None (s : string) :
  numeric_prefix s = None <-> begins_literal s = false.
Proof.
  unfold numeric_prefix, begins_literal.
  destruct (strip_sign (trim_start s)) as [neg body].
  apply read_unsigned_None.
Qed.

(** A token that is in neither table and names no inherited property is
    a literal: it is pushed as it is when [parse_raw] is set and as its
    [parseFloat] otherwise. *)
Lemma rpn_step_literal (self : ShuntingYard) (stk : list Value) (t : string) :
  isOperator self t = false ->
  isFunction self t = false ->
  inherited t = false ->
  rpn_step self stk t = Return (stk ++ [literal self t]).
Proof.
  intros Ho Hf Hi. unfold rpn_step.
  now rewrite (found_unregistered self t Ho Hf), Hi.
Qed.

(** [parseFloat] gives [nan] for a text that cannot begin a decimal
    literal. *)
Lemma parseFloat_nan (t : string) :
  begins_literal t = false -> parseFloat t = nan.
Proof.
  intros Hb. apply numeric_prefix_None in Hb.
  unfold parseFloat. now rewrite Hb.
Qed.

(** C9 does not hold of the code.  A token that matches no registered
    operator and no registered function, but names a property that the
    tables inherit from [Object.prototype], is not pushed: line 130 finds
    the inherited value, which is truthy and has no [method], and line 132
    throws a [TypeError].  So [parse("constructor")] is the one literal
    [constructor], and [resolve("constructor")] throws. *)
Theorem unregistered_inherited_name_throws :
  (forall self stk t,
      isOperator self t = false ->
      isFunction self t = false ->
      inherited t = true ->
      rpn_step self stk t = Throw TypeError)
  /\ (forall host,
        isOperator (default host) "constructor" = false /\
        isFunction (default host) "constructor" = false /\
        parse (default host) (Str "constructor")
        = Some (Return ["constructor"]) /\
        resolveRpn (default host) ["constructor"] = Throw TypeError /\
        resolve (default host) (Str "constructor") = Some (Throw TypeError)).
Proof.
  split.
  - intros self stk t Ho Hf Hi. unfold rpn_step.
    now rewrite (found_unregistered self t Ho Hf), Hi.
  - intros host. repeat split.
Qed.

Lemma unregistered_inherited_name_throws_witness :
  rpn_step (default plain_host) [VNum 1; VNum 2] "toString" = Throw TypeError.
Proof.
  apply (proj1 unregistered_inherited_name_throws (default plain_host)
           [VNum 1; VNum 2] "toString"); reflexivity.
Defined.

(** ** The result of [resolveRpn] *)

Lemma rpn_run_throws (self : ShuntingYard) :
  forall arr stk,
    Exists (fun t => found self t = Inherited) arr ->
    rpn_run self arr stk = Throw TypeError.
Proof.
  induction arr as [| t arr IH]; intros stk H; [inversion H |].
  cbn [rpn_run]. unfold rpn_step.
  destruct (found self t) as [op | |] eqn:E.
  - destruct (splice_neg (params op) stk) as [stk' args]. cbn [bind].
    apply IH. inversion H as [? ? Ht | ? ? Hr]; subst; [congruence | exact Hr].
  - reflexivity.
  - cbn [bind]. apply IH.
    inversion H as [? ? Ht | ? ? Hr]; subst; [congruence | exact Hr].
Qed.

Lemma rpn_run_returns (self : ShuntingYard) :
  forall arr stk,
    Forall (fun t => found self t <> Inherited) arr ->
    exists stk', rpn_run self arr stk = Return stk'.
Proof.
  induction arr as [| t arr IH]; intros stk H; [now exists stk |].
  inversion H as [| ? ? Ht Hr]; subst.
  cbn [rpn_run]. unfold rpn_step.
  destruct (found self t) as [op | |]; [| congruence |].
  - destruct (splice_neg (params op) stk) as [stk' args]. cbn [bind].
    now apply IH.
  - cbn [bind]. now apply IH.
Qed.

(** C10 does not hold of the code: [resolveRpn] does not return for every
    sequence.  Whenever a token of the sequence names a property that the
    tables inherit from [Object.prototype] (and is not an own key of the
    operators), the loop throws a [TypeError] at that token and no element
    of the stack is returned; so it is for [["1", "toString", "2"]] with
    the default table. *)
Theorem resolveRpn_throws_on_inherited_name :
  (forall self arr,
      Exists (fun t => found self t = Inherited) arr ->
      resolveRpn self arr = Throw TypeError)
  /\ (forall host,
        resolveRpn (default host) ["1"; "toString"; "2"] = Throw TypeError).
Proof.
  split.
  - intros self arr H. unfold resolveRpn.
    now rewrite (rpn_run_throws self arr [] H).
  - intros host. reflexivity.
Qed.

Lemma resolveRpn_throws_on_inherited_name_witness :
  resolveRpn (default plain_host) ["4"; "5"; "+"; "valueOf"] = Throw TypeError.
Proof.
  apply (proj1 resolveRpn_throws_on_inherited_name (default plain_host)
           ["4"; "5"; "+"; "valueOf"]).
  do 3 apply Exists_cons_tl. apply Exists_cons_hd. reflexivity.
Defined.

(** ** Sign folding *)

Lemma cons_neq_self {A : Type} (x : A) (l : list A) : x :: l <> l.
Proof.
  intros H. apply (f_equal (@List.length A)) in H. simpl in H. lia.
Qed.

Lemma held_condition (last : option string) :
  negb (truthy last)
  || match last with Some t => t =? "(" | None => false end = true <->
  truthy last = false \/ last = Some "(".
Proof.
  rewrite orb_true_iff, negb_true_iff.
  destruct last as [t |]; simpl.
  - destruct (String.eqb_spec t "(") as [-> | Hne].
    + split; auto.
    + split; intros [H | H]; auto; congruence.
  - split; auto.
Qed.

Lemma dispatch_holds_sign (self : ShuntingYard) (st : State) (tok : string) :
  truthy (sign st) = false ->
  (dispatch self st tok =
     Return {| output := output st; stack := stack st;
               sign := Some tok; lastToken := lastToken st |}
   <->
   classify self tok = OperatorSymbol /\
   (truthy (lastToken st) = false \/ lastToken st = Some "(")).
Proof.
  intros Hsign. unfold dispatch.
  destruct (classify self tok) eqn:Hclass.
  - split; [| intros [H _]; discriminate].
    intros H. injection H as H _. now apply cons_neq_self in H.
  - split; [| intros [H _]; discriminate].
    intros H. injection H as H _. now apply cons_neq_self in H.
  - split; [| intros [H _]; discriminate].
    destruct (close_para self (stack st) (output st)) as [[stk' out'] |] eqn:Hc;
      [| discriminate].
    intros H. injection H as _ H _. subst stk'.
    destruct (close_para_spec _ _ _ _ _ Hc) as (popped & marker & Hstk & _).
    apply (f_equal (@List.length string)) in Hstk.
    rewrite length_app in Hstk. simpl in Hstk. lia.
  - rewrite <- held_condition.
    destruct (negb (truthy (lastToken st)) || _) eqn:Hheld.
    + split; auto.
    + split; [| intros [_ H]; discriminate].
      destruct (pop_operators_spec self tok (stack st) (output st))
        as (popped & rest & Hstk & _ & _ & Hrun).
      rewrite Hrun. intros H. injection H as Hout Hst.
      rewrite <- (app_nil_r (output st)) in Hout at 2.
      apply app_inv_head in Hout. subst popped. simpl in Hstk.
      rewrite Hstk in Hst. now apply cons_neq_self in Hst.
  - split; [| intros [H _]; discriminate].
    intros H. injection H as Hout Hs Hl.
    rewrite Hs in Hsign. destruct tok as [| c tok']; [| discriminate].
    rewrite <- Hl in Hout. simpl in Hout.
    rewrite <- (app_nil_r (output st)) in Hout at 2.
    apply app_inv_head in Hout. discriminate.
Qed.

Lemma step_dispatch (self : ShuntingYard) (st : State) (token : string) :
  token <> " " ->
  step self st token =
  dispatch self
    {| output := output st; stack := stack st;
       sign := if truthy (sign st) then None else sign st;
       lastToken := lastToken st |}
    (current_token st token).
Proof.
  intros Hsp. unfold step, current_token.
  destruct (String.eqb_spec token " ") as [-> | _]; [contradiction |].
  destruct st as [out stk [[| c s] |] last]; reflexivity.
Qed.

(** C6.  For every token of the scan other than a single space, the token
    (with a pending sign in front of it) is held as the pending sign, and
    nothing else changes, if and only if it is classified as an operator
    and the last token is unset, empty or a left parenthesis.  A pending
    sign is kept across spaces and put in front of the next token, which is
    then classified.  With the default table [parse("-5+3")] is
    [["-5","3","+"]] and [resolve("-5+3")] is [-2]. *)
Theorem sign_is_held_iff_operator_at_start :
  (forall self st token,
      token <> " " ->
      (step self st token =
         Return {| output := output st; stack := stack st;
                   sign := Some (current_token st token);
                   lastToken := lastToken st |}
       <->
       classify self (current_token st token) = OperatorSymbol /\
       (truthy (lastToken st) = false \/ lastToken st = Some "(")))
  /\ (forall self st c s token,
        sign st = Some (String c s) ->
        token <> " " ->
        step self st token =
        dispatch self
          {| output := output st; stack := stack st; sign := None;
             lastToken := lastToken st |}
          (String c s ++ token)%string)
  /\ (forall self st, step self st " " = Return st)
  /\ (forall host,
        parse (default host) (Str "-5+3") = Some (Return ["-5"; "3"; "+"]))
  /\ (forall host,
        resolve (default host) (Str "-5+3") = Some (Return (VNum (-2)))).
Proof.
  split; [| split; [| split; [| split]]].
  - intros self st token Hsp. rewrite (step_dispatch self st token Hsp).
    set (st0 := {| output := output st; stack := stack st;
                   sign := if truthy (sign st) then None else sign st;
                   lastToken := lastToken st |}).
    apply (dispatch_holds_sign self st0 (current_token st token)).
    simpl. destruct (truthy (sign st)) eqn:E; [reflexivity | exact E].
  - intros self st c s token Hs Hsp. unfold step.
    destruct (String.eqb_spec token " ") as [-> | _]; [contradiction |].
    now rewrite Hs.
  - intros self st. reflexivity.
  - intros host. reflexivity.
  - intros host. reflexivity.
Qed.

Lemma sign_is_held_iff_operator_at_start_witness :
  (step (default plain_host)
     {| output := ["2"]; stack := ["("; "*"]; sign := None;
        lastToken := Some "(" |} "-"
   = Return {| output := ["2"]; stack := ["("; "*"]; sign := Some "-";
               lastToken := Some "(" |}
   <->
   classify (default plain_host) "-" = OperatorSymbol /\
   (truthy (Some "(") = false \/ Some "(" = Some "("))
  /\ step (default plain_host)
       {| output := []; stack := []; sign := Some "-"; lastToken := None |} "5"
     = dispatch (default plain_host) init "-5".
Proof.
  split.
  - apply (proj1 sign_is_held_iff_operator_at_start (default plain_host)
             {| output := ["2"]; stack := ["("; "*"]; sign := None;
                lastToken := Some "(" |} "-").
    discriminate.
  - apply (proj1 (proj2 sign_is_held_iff_operator_at_start)
             (default plain_host)
             {| output := []; stack := []; sign := Some "-";
                lastToken := None |} "-"%char EmptyString "5").
    + reflexivity.
    + discriminate.
Defined.

(** ** The two forms of input *)

Lemma length_drop (n : nat) :
  forall s, String.length (drop n s) = String.length s - n.
Proof.
  induction n as [| n IH]; intros [| c s]; simpl; auto.
Qed.

Lemma find_symbol_In (rest : string) :
  forall nits nit, find_symbol nits rest = Some nit -> In nit nits.
Proof.
  induction nits as [| n nits IH]; intros nit H; simpl in H; [discriminate |].
  destruct (String.prefix n rest).
  - injection H as <-. now left.
  - right. now apply IH.
Qed.

Lemma next_token_not_empty (nits : list string) (c : ascii) (rest' : string) :
  ~ In "" nits -> next_token nits (String c rest') <> "".
Proof.
  intros Hno. unfold next_token.
  destruct (find_symbol nits (String c rest')) as [nit |] eqn:Hf.
  - apply find_symbol_In in Hf. intros ->. contradiction.
  - discriminate.
Qed.

Lemma scan_fuel (nits : list string) :
  ~ In "" nits ->
  forall fuel rest,
    String.length rest <= fuel -> exists l, scan fuel nits rest = Some l.
Proof.
  intros Hno. induction fuel as [| fuel IH]; intros [| c rest'] Hlen;
    simpl in Hlen; [now exists [] | lia | now exists [] |].
  assert (Hne := next_token_not_empty nits c rest' Hno).
  destruct (IH (drop (String.length (next_token nits (String c rest')))
                     (String c rest'))) as [l Hl].
  { rewrite length_drop. simpl.
    destruct (next_token nits (String c rest')); [contradiction | simpl; lia]. }
  exists (next_token nits (String c rest') :: l).
  simpl. simpl in Hl. now rewrite Hl.
Qed.

Lemma parse_string_scan (self : ShuntingYard) :
  forall fuel rest st l,
    scan fuel (op_tokens self) rest = Some l ->
    parse_string fuel self rest st = Some (parse_tokens self l st).
Proof.
  induction fuel as [| fuel IH]; intros [| c rest'] st l H; simpl in H.
  - injection H as <-. reflexivity.
  - discriminate.
  - injection H as <-. reflexivity.
  - destruct (scan fuel _ _) as [l' |] eqn:Hl; [| discriminate].
    injection H as <-. cbn [parse_string parse_tokens].
    destruct (step self st _) as [st' | e]; simpl; [| reflexivity].
    now apply IH.
Qed.

(** A result obtained with some fuel is the result with any more. *)
Lemma parse_string_more_fuel (self : ShuntingYard) :
  forall fuel rest st r,
    parse_string fuel self rest st = Some r ->
    forall k, parse_string (fuel + k) self rest st = Some r.
Proof.
  induction fuel as [| fuel IH]; intros [| c rest'] st r H k; simpl in H.
  - destruct k; exact H.
  - discriminate.
  - exact H.
  - cbn [Nat.add parse_string].
    destruct (step self st _) as [st' | e]; [| exact H].
    now apply IH.
Qed.

(** On a string [parse] always ends unless the empty string is registered
    as a symbol. *)
Lemma parse_string_fuel (self : ShuntingYard) (s : string) :
  ~ In "" (op_tokens self) ->
  exists r, parse self (Str s) = Some r.
Proof.
  intros Hno.
  destruct (scan_fuel _ Hno (String.length s) s (le_n _)) as [l Hl].
  exists (parse_tokens self l init). simpl. now apply parse_string_scan.
Qed.

Lemma parse_tokens_spaces (self : ShuntingYard) :
  forall l st,
    parse_tokens self l st =
    parse_tokens_opaque self (filter (fun t => negb (t =? " ")) l) st.
Proof.
  induction l as [| token l IH]; intros st; simpl; [reflexivity |].
  unfold step. destruct (token =? " "); simpl.
  - apply IH.
  - unfold step_opaque.
    destruct (sign st) as [[| c s] |];
      (destruct (dispatch self _ _) as [st' | e]; simpl; [apply IH | reflexivity]).
Qed.

(** C7, as the specification states it, fails: the test for a single space
    is made on the elements of a tokenized sequence too.  The element [" "]
    of [["1", " ", "2"]] is discarded, where a loop without white space
    handling would add it to the literal. *)
Lemma space_element_is_discarded :
  parse (default plain_host) (Tokens ["1"; " "; "2"]) = Some (Return ["12"]) /\
  parse_tokens_opaque (default plain_host) ["1"; " "; "2"] init
  = Return ["1 2"] /\
  parse (default plain_host) (Tokens ["1"; " "; "2"])
  <> Some (parse_tokens_opaque (default plain_host) ["1"; " "; "2"] init).
Proof.
  repeat split. discriminate.
Qed.

(** C7, amended.  On a tokenized sequence the scan for symbols is skipped
    and each element is one token, but an element that is a single space is
    still discarded: the result is that of the parser run on the other
    elements, each as one opaque token.  A string goes through the same
    parser: its result is that of the sequence of the tokens scanned from
    it, and the scan ends unless the empty string is a registered symbol. *)
Theorem tokens_skip_the_scan_not_the_space_test :
  (forall self l,
      parse self (Tokens l) =
      Some (parse_tokens_opaque self
              (filter (fun t => negb (t =? " ")) l) init))
  /\ (forall self s l,
        scan (String.length s) (op_tokens self) s = Some l ->
        parse self (Str s) = parse self (Tokens l))
  /\ (forall self s,
        ~ In "" (op_tokens self) ->
        exists l, scan (String.length s) (op_tokens self) s = Some l)
  /\ (forall host,
        parse (default host) (Tokens ["3+4"; "*"; "2"])
        = Some (Return ["3+4"; "2"; "*"]))
  /\ (forall host,
        scan 5 (op_tokens (default host)) "3+4*2"
        = Some ["3"; "+"; "4"; "*"; "2"]).
Proof.
  split; [| split; [| split; [| split]]].
  - intros self l. simpl. now rewrite parse_tokens_spaces.
  - intros self s l H. simpl. now apply parse_string_scan.
  - intros self s Hno. now apply scan_fuel.
  - intros host. reflexivity.
  - intros host. reflexivity.
Qed.

Lemma tokens_skip_the_scan_not_the_space_test_witness :
  parse (default plain_host) (Str "3 + 4")
  = parse (default plain_host) (Tokens ["3"; " "; "+"; " "; "4"])
  /\ exists l,
       scan (String.length "3 + 4") (op_tokens (default plain_host)) "3 + 4"
       = Some l.
Proof.
  split.
  - apply (proj1 (proj2 tokens_skip_the_scan_not_the_space_test)
             (default plain_host) "3 + 4" ["3"; " "; "+"; " "; "4"]).
    reflexivity.
  - apply (proj1 (proj2 (proj2 tokens_skip_the_scan_not_the_space_test))
             (default plain_host) "3 + 4").
    simpl. intros [H | [H | [H | [H | [H | []]]]]]; discriminate.
Defined.

(** ** Syntax errors *)

Lemma close_para_None (self : ShuntingYard) :
  forall stk out,
    close_para self stk out = None <->
    Forall (fun t => t <> "" /\ t <> "(") stk.
Proof.
  induction stk as [| operator stk IH]; intros out; simpl.
  - split; [constructor | reflexivity].
  - unfold isLeftPara.
    destruct (String.eqb_spec operator "") as [E1 | E1]; simpl.
    + split; [discriminate |]. intros H. inversion H; subst. tauto.
    + destruct (String.eqb_spec operator "(") as [E2 | E2].
      * split; [discriminate |]. intros H. inversion H; subst. tauto.
      * rewrite IH. split.
        -- intros H. constructor; auto.
        -- intros H. now inversion H.
Qed.

Lemma drain_Throw :
  forall stk out e,
    drain stk out = Throw e <->
    In "(" stk /\ e = SyntaxError "Too many opening parenthesis".
Proof.
  induction stk as [| t stk IH]; intros out e; simpl.
  - split; [discriminate | intros [[] _]].
  - unfold isLeftPara. destruct (String.eqb_spec t "(") as [-> | Hne].
    + split.
      * intros H. injection H as <-. auto.
      * intros [_ ->]. reflexivity.
    + rewrite IH. split; intros [Hin He]; split; auto.
      destruct Hin as [Heq | Hin]; [congruence | assumption].
Qed.

Lemma dispatch_Throw (self : ShuntingYard) (st : State) (token : string)
    (e : Exception) :
  dispatch self st token = Throw e <->
  classify self token = RightPara /\
  close_para self (stack st) (output st) = None /\
  e = SyntaxError "Too many closing parenthesis".
Proof.
  unfold dispatch. destruct (classify self token).
  - split; [discriminate | intros (H & _); discriminate].
  - split; [discriminate | intros (H & _); discriminate].
  - destruct (close_para self (stack st) (output st)) as [[stk' out'] |].
    + split; [discriminate | intros (_ & H & _); discriminate].
    + split; [intros H; injection H as <-; auto | intros (_ & _ & ->); reflexivity].
  - split; [| intros (H & _); discriminate].
    destruct (negb (truthy (lastToken st)) || _); [discriminate |].
    destruct (pop_operators self token (stack st) (output st)). discriminate.
  - split; [discriminate | intros (H & _); discriminate].
Qed.

Lemma step_Throw (self : ShuntingYard) (st : State) (token : string)
    (e : Exception) :
  step self st token = Throw e ->
  e = SyntaxError "Too many closing parenthesis".
Proof.
  unfold step. destruct (token =? " "); [discriminate |].
  destruct (sign st) as [[| c s] |]; intros H; apply dispatch_Throw in H; tauto.
Qed.

Lemma parse_tokens_Throw (self : ShuntingYard) :
  forall l st e,
    parse_tokens self l st = Throw e ->
    e = SyntaxError "Too many closing parenthesis" \/
    e = SyntaxError "Too many opening parenthesis".
Proof.
  induction l as [| token l IH]; intros st e H; simpl in H.
  - right. apply drain_Throw in H. tauto.
  - destruct (step self st token) as [st' |e'] eqn:Hstep; simpl in H.
    + now apply IH in H.
    + injection H as <-. left. now apply step_Throw in Hstep.
Qed.

Lemma parse_string_Throw (self : ShuntingYard) :
  forall fuel rest st e,
    parse_string fuel self rest st = Some (Throw e) ->
    e = SyntaxError "Too many closing parenthesis" \/
    e = SyntaxError "Too many opening parenthesis".
Proof.
  induction fuel as [| fuel IH]; intros rest st e H;
    destruct rest as [| c rest']; simpl in H.
  - injection H as H. right. apply drain_Throw in H. tauto.
  - discriminate.
  - injection H as H. right. apply drain_Throw in H. tauto.
  - destruct (step self st _) as [st' | e'] eqn:Hstep.
    + now apply IH in H.
    + injection H as <-. left. now apply step_Throw in Hstep.
Qed.

(** The entries of the operator stack are never empty strings unless the
    empty string is a registered symbol. *)
Lemma dispatch_stack_entries (self : ShuntingYard) (st st' : State)
    (token : string) :
  ~ In "" (op_tokens self) ->
  ~ In "" (stack st) ->
  dispatch self st token = Return st' ->
  ~ In "" (stack st').
Proof.
  intros Hsym Hst. unfold dispatch.
  assert (Hfun : isFunction self token = true -> token <> "").
  { unfold isFunction. rewrite existsb_eqb_In. intros Hin ->.
    apply Hsym. unfold op_tokens. apply in_or_app. now right. }
  assert (Hop : isOperator self token = true -> token <> "").
  { unfold isOperator. rewrite existsb_eqb_In. intros Hin ->.
    apply Hsym. unfold op_tokens. apply in_or_app. now left. }
  unfold classify, isLeftPara.
  destruct (String.eqb_spec token "(") as [-> | Hlp].
  { intros H. injection H as <-. simpl. intros [E | E]; [discriminate | auto]. }
  destruct (isFunction self token) eqn:Ef.
  { intros H. injection H as <-. simpl. intros [E | E]; [| auto].
    now apply Hfun. }
  destruct (isRightPara token).
  { destruct (close_para self (stack st) (output st)) as [[stk' out'] |] eqn:Hc;
      [| discriminate].
    intros H. injection H as <-. simpl.
    destruct (close_para_spec _ _ _ _ _ Hc) as (popped & marker & Hstk & _).
    intros Hin. apply Hst. rewrite Hstk. apply in_or_app. right. now right. }
  destruct (isOperator self token) eqn:Eo.
  { destruct (negb (truthy (lastToken st)) || _).
    - intros H. injection H as <-. exact Hst.
    - destruct (pop_operators_spec self token (stack st) (output st))
        as (popped & rest & Hstk & _ & _ & Hrun).
      rewrite Hrun. intros H. injection H as <-. simpl.
      intros [E | E]; [now apply Hop |].
      apply Hst. rewrite Hstk. apply in_or_app. now right. }
  intros H. injection H as <-. exact Hst.
Qed.

Lemma step_stack_entries (self : ShuntingYard) (st st' : State)
    (token : string) :
  ~ In "" (op_tokens self) ->
  ~ In "" (stack st) ->
  step self st token = Return st' ->
  ~ In "" (stack st').
Proof.
  intros Hsym Hst. unfold step. destruct (token =? " ").
  - intros H. injection H as <-. exact Hst.
  - destruct (sign st) as [[| c s] |]; intros H;
      apply (dispatch_stack_entries _ _ _ _ Hsym) in H; assumption.
Qed.

Lemma run_stack_entries (self : ShuntingYard) :
  ~ In "" (op_tokens self) ->
  forall l st st',
    ~ In "" (stack st) -> run self l st = Return st' -> ~ In "" (stack st').
Proof.
  intros Hsym. induction l as [| t l IH]; intros st st' Hst H; simpl in H.
  - injection H as <-. exact Hst.
  - destruct (step self st t) as [st1 | e] eqn:Hstep; simpl in H;
      [| discriminate].
    apply (IH st1 st'); [| exact H].
    exact (step_stack_entries _ _ _ _ Hsym Hst Hstep).
Qed.

(** A run of the parser throws at the first element whose step throws, or
    at the end. *)
Lemma parse_tokens_Throw_iff (self : ShuntingYard) :
  forall l st e,
    parse_tokens self l st = Throw e <->
    (exists l1 t l2 st',
        l = l1 ++ t :: l2 /\ run self l1 st = Return st' /\
        step self st' t = Throw e)
    \/ (exists st', run self l st = Return st' /\ finish st' = Throw e).
Proof.
  induction l as [| t l IH]; intros st e; simpl.
  - split.
    + intros H. right. now exists st.
    + intros [(l1 & t & l2 & st' & Hl & _) | (st' & Hr & Hf)].
      * now destruct l1.
      * now injection Hr as <-.
  - destruct (step self st t) as [st1 | e1] eqn:Hstep; simpl.
    + rewrite IH. split.
      * intros [(l1 & t' & l2 & st' & -> & Hr & Ht) | (st' & Hr & Hf)].
        -- left. exists (t :: l1), t', l2, st'. simpl. rewrite Hstep. auto.
        -- right. now exists st'.
      * intros [(l1 & t' & l2 & st' & Hl & Hr & Ht) | (st' & Hr & Hf)].
        -- destruct l1 as [| t0 l1]; simpl in Hl, Hr.
           ++ injection Hl as <- <-. injection Hr as <-. congruence.
           ++ injection Hl as <- ->. rewrite Hstep in Hr. simpl in Hr.
              left. now exists l1, t', l2, st'.
        -- right. now exists st'.
    + split.
      * intros H. injection H as <-. left. now exists [], t, l, st.
      * intros [(l1 & t' & l2 & st' & Hl & Hr & Ht) | (st' & Hr & Hf)].
        -- destruct l1 as [| t0 l1]; simpl in Hl, Hr.
           ++ injection Hl as <- <-. injection Hr as <-. congruence.
           ++ injection Hl as <- ->. rewrite Hstep in Hr. discriminate.
        -- discriminate.
Qed.

Lemma step_Throw_iff (self : ShuntingYard) (st : State) (t : string)
    (e : Exception) :
  ~ In "" (stack st) ->
  (step self st t = Throw e <->
   t <> " " /\ classify self (current_token st t) = RightPara /\
   ~ In "(" (stack st) /\ e = SyntaxError "Too many closing parenthesis").
Proof.
  intros Hempty. destruct (String.eqb_spec t " ") as [-> | Hsp].
  - split; [discriminate | intros [H _]; now elim H].
  - rewrite (step_dispatch self st t Hsp), dispatch_Throw. simpl.
    rewrite close_para_None, Forall_forall.
    split.
    + intros (Hc & Hs & He). repeat split; trivial.
      intros Hin. now destruct (Hs _ Hin).
    + intros (_ & Hc & Hs & He). repeat split; trivial;
        intros Hx; subst x; contradiction.
Qed.

(** C4.  [parse] throws exactly on unbalanced parentheses, with one message
    for each kind.  It throws "Too many closing parenthesis" when a right
    parenthesis is read while no left parenthesis is on the operator stack,
    "Too many opening parenthesis" when a left parenthesis is on the stack
    once the input is exhausted, and in no other case; a string is parsed
    as the sequence of its scanned tokens.  (The empty string is taken not
    to be a registered symbol.)  [parse("1+2)")] is of the first kind and
    [parse("(1+2")] of the second. *)
Theorem syntax_errors_are_unbalanced_parentheses :
  (forall self l e,
      ~ In "" (op_tokens self) ->
      (parse self (Tokens l) = Some (Throw e) <->
       (unmatched_closing self l /\
        e = SyntaxError "Too many closing parenthesis")
       \/ (unmatched_opening self l /\
           e = SyntaxError "Too many opening parenthesis")))
  /\ (forall self s,
        ~ In "" (op_tokens self) ->
        exists l,
          scan (String.length s) (op_tokens self) s = Some l /\
          parse self (Str s) = parse self (Tokens l))
  /\ (forall self str e,
        parse self str = Some (Throw e) ->
        e = SyntaxError "Too many closing parenthesis" \/
        e = SyntaxError "Too many opening parenthesis")
  /\ (forall host,
        parse (default host) (Str "1+2)")
        = Some (Throw (SyntaxError "Too many closing parenthesis")))
  /\ (forall host,
        parse (default host) (Str "(1+2")
        = Some (Throw (SyntaxError "Too many opening parenthesis"))).
Proof.
  split; [| split; [| split; [| split]]].
  - intros self l e Hsym. simpl.
    assert (Hinv : forall l1 st, run self l1 init = Return st ->
                                 ~ In "" (stack st)).
    { intros l1 st Hr. apply (run_stack_entries self Hsym l1 init st); auto. }
    split.
    + intros H. injection H as H. apply parse_tokens_Throw_iff in H.
      destruct H as [(l1 & t & l2 & st & Hl & Hr & Ht) | (st & Hr & Hf)].
      * apply (step_Throw_iff self st t e (Hinv _ _ Hr)) in Ht.
        destruct Ht as (Hsp & Hc & Hs & He).
        left. split; [| exact He]. now exists l1, t, l2, st.
      * apply drain_Throw in Hf. destruct Hf as [Hin He].
        right. split; [| exact He]. now exists st.
    + intros H. f_equal. apply parse_tokens_Throw_iff.
      destruct H as [[(l1 & t & l2 & st & Hl & Hr & Hsp & Hc & Hs) He]
                    | [(st & Hr & Hin) He]].
      * left. exists l1, t, l2, st. repeat split; trivial.
        apply (step_Throw_iff self st t e (Hinv _ _ Hr)). auto.
      * right. exists st. split; [exact Hr |]. apply drain_Throw. auto.
  - intros self s Hsym.
    destruct (scan_fuel _ Hsym (String.length s) s (le_n _)) as [l Hl].
    exists l. split; [exact Hl |]. simpl. now apply parse_string_scan.
  - intros self [s | l] e H; simpl in H.
    + now apply parse_string_Throw in H.
    + injection H as H. now apply parse_tokens_Throw in H.
  - intros host. reflexivity.
  - intros host. reflexivity.
Qed.

Lemma syntax_errors_are_unbalanced_parentheses_witness :
  (parse (default plain_host) (Tokens ["1"; "+"; "2"; ")"])
   = Some (Throw (SyntaxError "Too many closing parenthesis")) <->
   (unmatched_closing (default plain_host) ["1"; "+"; "2"; ")"] /\
    SyntaxError "Too many closing parenthesis"
    = SyntaxError "Too many closing parenthesis")
   \/ (unmatched_opening (default plain_host) ["1"; "+"; "2"; ")"] /\
       SyntaxError "Too many closing parenthesis"
       = SyntaxError "Too many opening parenthesis"))
  /\ (exists l,
         scan (String.length "(1+2") (op_tokens (default plain_host)) "(1+2"
         = Some l /\
         parse (default plain_host) (Str "(1+2")
         = parse (default plain_host) (Tokens l))
  /\ (SyntaxError "Too many opening parenthesis"
      = SyntaxError "Too many closing parenthesis" \/
      SyntaxError "Too many opening parenthesis"
      = SyntaxError "Too many opening parenthesis").
Proof.
  assert (Hsym : ~ In "" (op_tokens (default plain_host))).
  { simpl. intros [H | [H | [H | [H | [H | []]]]]]; discriminate. }
  split; [| split].
  - apply (proj1 syntax_errors_are_unbalanced_parentheses (default plain_host)
             ["1"; "+"; "2"; ")"]
             (SyntaxError "Too many closing parenthesis") Hsym).
  - apply (proj1 (proj2 syntax_errors_are_unbalanced_parentheses)
             (default plain_host) "(1+2" Hsym).
  - apply (proj1 (proj2 (proj2 syntax_errors_are_unbalanced_parentheses))
             (default plain_host) (Str "(1+2")).
    reflexivity.
Defined.

(** ** Checks of the model of [parseFloat] *)

Example parseFloat_samples :
  parseFloat "3" = 3%float /\ parseFloat "  -12.50e1xyz" = (-125)%float /\
  parseFloat ".5" = 0.5%float /\ parseFloat "7." = 7%float /\
  parseFloat "-0" = neg_zero /\ parseFloat "-Infinity" = neg_infinity /\
  parseFloat "1e5" = 100000%float /\ parseFloat "1e" = 1%float /\
  parseFloat "0.1" = 0x1.999999999999ap-4%float /\
  parseFloat "" = nan /\ parseFloat "abc" = nan /\ parseFloat "." = nan /\
  parseFloat "-" = nan /\ parseFloat "e5" = nan.
Proof. repeat split; vm_compute; reflexivity. Qed.

(** * Further properties *)

(** ** Registration *)

Lemma existsb_keys_lookup (o : Table) (t : string) :
  existsb (String.eqb t) (keys o) =
  match lookup o t with
  | Some _ => true
  | None => false
  end.
Proof.
  induction o as [| [k v] o IH]; simpl; [reflexivity |].
  rewrite (String.eqb_sym t k). destruct (k =? t); [reflexivity | exact IH].
Qed.

Lemma lookup_replace_same (o : Table) (k : string) (v : Operator) :
  lookup o k <> None -> lookup (replace o k v) k = Some v.
Proof.
  induction o as [| [k' v'] o IH]; simpl; [congruence |].
  destruct (k' =? k) eqn:E; simpl; rewrite E; [reflexivity | exact IH].
Qed.

Lemma lookup_replace_other (o : Table) (k t : string) (v : Operator) :
  t <> k -> lookup (replace o k v) t = lookup o t.
Proof.
  intros Hne. induction o as [| [k' v'] o IH]; simpl; [reflexivity |].
  destruct (String.eqb_spec k' k) as [-> | Hk]; simpl.
  - destruct (String.eqb_spec k t) as [E | _]; [congruence | reflexivity].
  - destruct (k' =? t); [reflexivity | exact IH].
Qed.

Lemma keys_replace (o : Table) (k : string) (v : Operator) :
  keys (replace o k v) = keys o.
Proof.
  induction o as [| [k' v'] o IH]; simpl; [reflexivity |].
  destruct (k' =? k); simpl; [reflexivity | now rewrite IH].
Qed.

Lemma lookup_insert_index_same (o : Table) (n : Z) (k : string) (v : Operator) :
  lookup o k = None -> lookup (insert_index o n k v) k = Some v.
Proof.
  induction o as [| [k' v'] o IH]; simpl; intros H.
  - now rewrite String.eqb_refl.
  - destruct (k' =? k) eqn:E; [discriminate |].
    destruct (array_index k') as [n' |]; [destruct (n' <? n)%Z |]; simpl;
      rewrite ?E, ?String.eqb_refl; auto.
Qed.

Lemma lookup_insert_index_other (o : Table) (n : Z) (k t : string)
    (v : Operator) :
  t <> k -> lookup (insert_index o n k v) t = lookup o t.
Proof.
  intros Hne. apply not_eq_sym in Hne. apply String.eqb_neq in Hne.
  induction o as [| [k' v'] o IH]; simpl.
  - now rewrite Hne.
  - destruct (array_index k') as [n' |]; [destruct (n' <? n)%Z |]; simpl;
      rewrite ?Hne, ?IH; reflexivity.
Qed.

Lemma lookup_app_new (o : Table) (k t : string) (v : Operator) :
  lookup (o ++ [(k, v)]) t =
  match lookup o t with
  | Some x => Some x
  | None => if k =? t then Some v else None
  end.
Proof.
  induction o as [| [k' v'] o IH]; simpl; [reflexivity |].
  destruct (k' =? t); [reflexivity | exact IH].
Qed.

Lemma Add_insert_index (o : Table) (n : Z) (k : string) (v : Operator) :
  Add k (keys o) (keys (insert_index o n k v)).
Proof.
  induction o as [| [k' v'] o IH]; simpl.
  - constructor.
  - destruct (array_index k') as [n' |]; [destruct (n' <? n)%Z |]; simpl;
      try constructor. exact IH.
Qed.

Lemma lookup_assign_same (o : Table) (k : string) (v : Operator) :
  k <> "__proto__" -> lookup (assign o k v) k = Some v.
Proof.
  intros Hk. unfold assign. apply String.eqb_neq in Hk. rewrite Hk.
  destruct (lookup o k) as [x |] eqn:E.
  - apply lookup_replace_same. congruence.
  - destruct (array_index k) as [n |].
    + now apply lookup_insert_index_same.
    + now rewrite lookup_app_new, E, String.eqb_refl.
Qed.

Lemma lookup_assign_other (o : Table) (k t : string) (v : Operator) :
  t <> k -> lookup (assign o k v) t = lookup o t.
Proof.
  intros Hne. unfold assign. destruct (k =? "__proto__"); [reflexivity |].
  destruct (lookup o k) as [x |] eqn:E.
  - now apply lookup_replace_other.
  - destruct (array_index k) as [n |].
    + now apply lookup_insert_index_other.
    + rewrite lookup_app_new.
      destruct (String.eqb_spec k t) as [-> | _]; [congruence |].
      now destruct (lookup o t).
Qed.

Lemma NoDup_keys_assign (o : Table) (k : string) (v : Operator) :
  NoDup (keys o) -> NoDup (keys (assign o k v)).
Proof.
  intros Hnd. unfold assign. destruct (k =? "__proto__"); [exact Hnd |].
  destruct (lookup o k) as [x |] eqn:E.
  - now rewrite keys_replace.
  - assert (Hnew : ~ In k (keys o)).
    { intros Hin. apply lookup_In_keys in Hin. destruct Hin as [y Hy].
      congruence. }
    destruct (array_index k) as [n |].
    + apply (NoDup_Add (Add_insert_index o n k v)). auto.
    + unfold keys. rewrite map_app. simpl.
      apply (NoDup_Add (a := k) (l := map fst o)); [| auto].
      rewrite <- (app_nil_r (map fst o)) at 1. apply Add_app.
Qed.

Lemma keys_assign_registered (o : Table) (k : string) (v : Operator) :
  lookup o k <> None -> keys (assign o k v) = keys o.
Proof.
  intros H. unfold assign. destruct (k =? "__proto__"); [reflexivity |].
  destruct (lookup o k); [apply keys_replace | congruence].
Qed.

(** X1.  After [addOperator(key, operator)], for a key other than
    [__proto__], the table of operators maps the key to that descriptor and
    the key is an operator, whether it was registered before or not; every
    other token is looked up and classified as before; the functions and
    the flag are untouched. *)
Theorem addOperator_registers :
  forall self key operator,
    key <> "__proto__" ->
    let self' := fst (addOperator self key operator) in
    lookup (operators self') key = Some operator
    /\ isOperator self' key = true
    /\ (forall t, t <> key ->
          lookup (operators self') t = lookup (operators self) t /\
          isOperator self' t = isOperator self t)
    /\ (forall t, isFunction self' t = isFunction self t)
    /\ functions self' = functions self
    /\ parse_raw self' = parse_raw self.
Proof.
  intros self key operator Hk. simpl.
  split; [now apply lookup_assign_same |].
  split.
  { unfold isOperator. simpl. rewrite existsb_keys_lookup.
    now rewrite lookup_assign_same. }
  split; [| auto].
  intros t Ht. split; [now apply lookup_assign_other |].
  unfold isOperator. simpl. rewrite !existsb_keys_lookup.
  now rewrite lookup_assign_other.
Qed.

Lemma addOperator_registers_witness :
  let self' :=
    fst (addOperator (default plain_host) "-"
           {| name := "-"; precedence := 9; associativity := right;
              params := 1; method := fun _ => VUndef |}) in
  option_map precedence (lookup (operators self') "-") = Some 9%Z
  /\ isOperator self' "-" = true.
Proof.
  destruct (addOperator_registers (default plain_host) "-"
              {| name := "-"; precedence := 9; associativity := right;
                 params := 1; method := fun _ => VUndef |})
    as (H1 & H2 & _).
  - discriminate.
  - split; [| exact H2]. cbv zeta. now rewrite H1.
Defined.

(** X2.  After [addFunction(key, func)], for a key other than [__proto__],
    the table of functions maps the key to that descriptor and the key is a
    function; every other token is looked up and classified as before; the
    operators and the flag are untouched. *)
Theorem addFunction_registers :
  forall self key func,
    key <> "__proto__" ->
    let self' := fst (addFunction self key func) in
    lookup (functions self') key = Some func
    /\ isFunction self' key = true
    /\ (forall t, t <> key ->
          lookup (functions self') t = lookup (functions self) t /\
          isFunction self' t = isFunction self t)
    /\ (forall t, isOperator self' t = isOperator self t)
    /\ operators self' = operators self
    /\ parse_raw self' = parse_raw self.
Proof.
  intros self key func Hk. simpl.
  split; [now apply lookup_assign_same |].
  split.
  { unfold isFunction. simpl. rewrite existsb_keys_lookup.
    now rewrite lookup_assign_same. }
  split; [| auto].
  intros t Ht. split; [now apply lookup_assign_other |].
  unfold isFunction. simpl. rewrite !existsb_keys_lookup.
  now rewrite lookup_assign_other.
Qed.

Lemma addFunction_registers_witness :
  let self' :=
    fst (addFunction (default plain_host) "sq"
           {| name := "sq"; precedence := 0; associativity := left;
              params := 1; method := fun _ => VUndef |}) in
  option_map params (lookup (functions self') "sq") = Some 1%Z
  /\ isFunction self' "sq" = true.
Proof.
  destruct (addFunction_registers (default plain_host) "sq"
              {| name := "sq"; precedence := 0; associativity := left;
                 params := 1; method := fun _ => VUndef |})
    as (H1 & H2 & _).
  - discriminate.
  - split; [| exact H2]. cbv zeta. now rewrite H1.
Defined.

(** X3.  Registration keeps the keys of both tables distinct, and
    registering again a symbol that is registered changes neither the keys
    nor their order, so that every string is scanned into the same tokens
    as before. *)
Theorem registration_keeps_keys :
  forall self key d,
    (NoDup (keys (operators self)) ->
     NoDup (keys (operators (fst (addOperator self key d)))))
    /\ (NoDup (keys (functions self)) ->
        NoDup (keys (functions (fst (addFunction self key d)))))
    /\ (isOperator self key = true ->
        op_tokens (fst (addOperator self key d)) = op_tokens self /\
        forall fuel rest,
          scan fuel (op_tokens (fst (addOperator self key d))) rest
          = scan fuel (op_tokens self) rest)
    /\ (isFunction self key = true ->
        op_tokens (fst (addFunction self key d)) = op_tokens self /\
        forall fuel rest,
          scan fuel (op_tokens (fst (addFunction self key d))) rest
          = scan fuel (op_tokens self) rest).
Proof.
  intros self key d.
  split; [apply NoDup_keys_assign |].
  split; [apply NoDup_keys_assign |].
  split.
  - intros H. unfold isOperator in H. rewrite existsb_keys_lookup in H.
    assert (E : op_tokens (fst (addOperator self key d)) = op_tokens self).
    { unfold op_tokens. simpl. rewrite keys_assign_registered; [reflexivity |].
      destruct (lookup (operators self) key); congruence. }
    split; [exact E |]. intros fuel rest. now rewrite E.
  - intros H. unfold isFunction in H. rewrite existsb_keys_lookup in H.
    assert (E : op_tokens (fst (addFunction self key d)) = op_tokens self).
    { unfold op_tokens. simpl. rewrite keys_assign_registered; [reflexivity |].
      destruct (lookup (functions self) key); congruence. }
    split; [exact E |]. intros fuel rest. now rewrite E.
Qed.

Lemma registration_keeps_keys_witness :
  NoDup (keys (operators (fst (addOperator (default plain_host) "%"
           {| name := "%"; precedence := 3; associativity := left;
              params := 2; method := fun _ => VUndef |}))))
  /\ op_tokens (fst (addOperator (default plain_host) "*"
           {| name := "*"; precedence := 9; associativity := left;
              params := 2; method := fun _ => VUndef |}))
     = op_tokens (default plain_host).
Proof.
  split.
  - apply (proj1 (registration_keeps_keys (default plain_host) "%"
             {| name := "%"; precedence := 3; associativity := left;
                params := 2; method := fun _ => VUndef |})).
    simpl. repeat constructor; simpl; intuition discriminate.
  - apply (proj1 (proj2 (proj2 (registration_keeps_keys (default plain_host) "*"
             {| name := "*"; precedence := 9; associativity := left;
                params := 2; method := fun _ => VUndef |})))).
    reflexivity.
Defined.

(** ** The operand stack *)

Lemma found_Inherited (self : ShuntingYard) (t : string) :
  found self t = Inherited -> inherited t = true.
Proof.
  unfold found, get.
  destruct (lookup (operators self) t); [discriminate |].
  destruct (inherited t); [reflexivity |].
  destruct (lookup (functions self) t); discriminate.
Qed.

Lemma splice_neg_parts (n : Z) (stk : list Value) :
  exists k,
    splice_neg n stk = (firstn k stk, skipn k stk).
Proof.
  unfold splice_neg. eexists. reflexivity.
Qed.

Lemma rpn_step_shape (self : ShuntingYard) (stk stk' : list Value)
    (t : string) :
  rpn_step self stk t = Return stk' ->
  exists below v,
    stk' = below ++ [v] /\
    List.length below <= List.length stk.
Proof.
  unfold rpn_step. destruct (found self t) as [op | |].
  - destruct (splice_neg_parts (params op) stk) as [k Hk]. rewrite Hk.
    intros H. injection H as <-.
    exists (firstn k stk), (method op (skipn k stk)). split; [reflexivity |].
    rewrite length_firstn. lia.
  - discriminate.
  - intros H. injection H as <-. exists stk, (literal self t). auto.
Qed.

Lemma rpn_run_length (self : ShuntingYard) :
  forall arr stk stk',
    arr <> [] ->
    rpn_run self arr stk = Return stk' ->
    1 <= List.length stk' <= List.length stk + List.length arr.
Proof.
  induction arr as [| t arr IH]; intros stk stk' Hne H; [congruence |].
  cbn [rpn_run] in H.
  destruct (rpn_step self stk t) as [stk1 | e] eqn:Hs; [| discriminate].
  cbn [bind] in H.
  destruct (rpn_step_shape self stk stk1 t Hs) as (below & v & -> & Hlen).
  destruct arr as [| t' arr].
  - injection H as <-. rewrite length_app. simpl. lia.
  - assert (Hne' : t' :: arr <> []) by discriminate.
    specialize (IH _ _ Hne' H). rewrite length_app in IH.
    simpl in IH. simpl. lia.
Qed.

Lemma resolveRpn_of_run (self : ShuntingYard) (arr : list string)
    (stk : list Value) :
  arr <> [] ->
  rpn_run self arr [] = Return stk ->
  exists v rest,
    stk = v :: rest /\ resolveRpn self arr = Return v /\
    List.length rest < List.length arr.
Proof.
  intros Hne Hrun. assert (H := rpn_run_length self arr [] stk Hne Hrun).
  unfold resolveRpn. rewrite Hrun.
  destruct stk as [| v rest]; simpl in H; [lia |].
  exists v, rest. repeat split. lia.
Qed.

(** X4.  When no token of a sequence reads an inherited property, the loop
    of [resolveRpn] runs to the end; every token leaves at least one value
    on the operand stack and adds at most one to its height.  So the result
    on a sequence that is not empty is an element of the stack, never the
    [undefined] of an empty stack, and fewer values than there are tokens
    are dropped with the rest of the stack. *)
Theorem resolveRpn_result_is_on_the_stack :
  forall self arr,
    arr <> [] ->
    Forall (fun t => found self t <> Inherited) arr ->
    exists v rest,
      rpn_run self arr [] = Return (v :: rest) /\
      resolveRpn self arr = Return v /\
      List.length rest < List.length arr.
Proof.
  intros self arr Hne Hall.
  destruct (rpn_run_returns self arr [] Hall) as [stk Hrun].
  destruct (resolveRpn_of_run self arr stk Hne Hrun) as (v & rest & -> & H).
  now exists v, rest.
Qed.

Lemma resolveRpn_result_is_on_the_stack_witness :
  exists v rest,
    rpn_run (default plain_host) ["+"] [] = Return (v :: rest) /\
    resolveRpn (default plain_host) ["+"] = Return v /\
    List.length rest < List.length ["+"].
Proof.
  apply (resolveRpn_result_is_on_the_stack (default plain_host) ["+"]).
  - discriminate.
  - repeat constructor. discriminate.
Defined.

Lemma arg_number_or_undefined (args : list Value) (i : nat) :
  Forall is_number args ->
  arg i args = VUndef \/ exists f, arg i args = VNum f.
Proof.
  intros Hall. unfold arg.
  destruct (nth_in_or_default i args VUndef) as [Hin | Hd]; [| now left].
  rewrite Forall_forall in Hall. specialize (Hall _ Hin).
  destruct (nth i args VUndef) as [f | s |]; simpl in Hall;
    [right; now exists f | contradiction | now left].
Qed.

Lemma js_add_number (host : Host.t) (args : list Value) :
  Forall is_number args ->
  is_number (js_add host (arg 0 args) (arg 1 args)).
Proof.
  intros Hall.
  destruct (arg_number_or_undefined args 0 Hall) as [-> | [f ->]];
    destruct (arg_number_or_undefined args 1 Hall) as [-> | [g ->]];
    exact I.
Qed.

Lemma default_step_numbers (host : Host.t) (stk stk' : list Value)
    (t : string) :
  Forall is_number stk ->
  rpn_step (default host) stk t = Return stk' ->
  Forall is_number stk'.
Proof.
  intros Hall. unfold rpn_step.
  destruct (found (default host) t) as [op | |] eqn:Hop.
  - destruct (splice_neg_parts (params op) stk) as [k Hk]. rewrite Hk.
    intros H. injection H as <-.
    rewrite <- (firstn_skipn k stk) in Hall.
    apply Forall_app in Hall. destruct Hall as [Hbelow Hargs].
    apply Forall_app. split; [exact Hbelow |].
    constructor; [| constructor].
    unfold found, get in Hop. simpl in Hop.
    repeat match type of Hop with
           | context [if ?b then _ else _] => destruct b
           end;
      try discriminate; injection Hop as <-; simpl;
      try exact I. now apply js_add_number.
  - discriminate.
  - intros H. injection H as <-.
    apply Forall_app. split; [exact Hall |].
    constructor; [exact I | constructor].
Qed.

(** X5.  With the default table and flag, on a sequence none of whose
    tokens names a property of [Object.prototype], the loop of [resolveRpn]
    runs to the end and the operand stack holds numbers only; the result on
    a sequence that is not empty is a number ([NaN] included): never a
    string and never [undefined]. *)
Theorem default_results_are_numbers :
  forall host arr,
    Forall (fun t => inherited t = false) arr ->
    (exists stk,
        rpn_run (default host) arr [] = Return stk /\ Forall is_number stk)
    /\ (arr <> [] -> exists f, resolveRpn (default host) arr = Return (VNum f)).
Proof.
  intros host arr Hall.
  assert (Hfound : Forall (fun t => found (default host) t <> Inherited) arr).
  { apply Forall_forall. intros t Hin Hf. apply found_Inherited in Hf.
    rewrite Forall_forall in Hall. specialize (Hall _ Hin). congruence. }
  assert (Hnum : forall l stk stk',
             Forall is_number stk ->
             rpn_run (default host) l stk = Return stk' ->
             Forall is_number stk').
  { induction l as [| t l IH]; intros stk stk' Hs H; cbn [rpn_run] in H.
    - now injection H as <-.
    - destruct (rpn_step (default host) stk t) as [stk1 | e] eqn:E;
        [| discriminate].
      cbn [bind] in H. apply (IH stk1 stk'); [| exact H].
      exact (default_step_numbers host stk stk1 t Hs E). }
  destruct (rpn_run_returns (default host) arr [] Hfound) as [stk Hrun].
  assert (Hstk := Hnum arr [] stk (Forall_nil _) Hrun).
  split; [now exists stk |].
  intros Hne.
  destruct (resolveRpn_of_run (default host) arr stk Hne Hrun)
    as (v & rest & -> & Hres & _).
  rewrite Hres. apply Forall_inv in Hstk.
  destruct v as [f | x |]; simpl in Hstk; try contradiction.
  now exists f.
Qed.

Lemma default_results_are_numbers_witness :
  exists f, resolveRpn (default plain_host) ["x"; "+"; "*"] = Return (VNum f).
Proof.
  apply (proj2 (default_results_are_numbers plain_host ["x"; "+"; "*"]
                  ltac:(repeat constructor))).
  discriminate.
Defined.

(** X6.  A descriptor whose arity is zero takes every operand off the
    stack, and one whose arity is a negative [-k] keeps the bottom [k]
    operands and takes the others: [splice] is called with a start that is
    not negative.  The behaviour receives what was taken, in stack order. *)
Theorem arity_not_positive_takes_from_the_bottom :
  forall self stk t op,
    descriptor self t = Some op ->
    (params op <= 0)%Z ->
    rpn_step self stk t =
      Return (firstn (Z.to_nat (- params op)) stk
              ++ [method op (skipn (Z.to_nat (- params op)) stk)])
    /\ (params op = 0%Z -> rpn_step self stk t = Return [method op stk]).
Proof.
  intros self stk t op Hop Hp. apply descriptor_Some in Hop.
  assert (Hs : splice_neg (params op) stk =
               (firstn (Z.to_nat (- params op)) stk,
                skipn (Z.to_nat (- params op)) stk)).
  { unfold splice_neg.
    destruct (Z.ltb_spec (- params op) 0) as [Hlt | _]; [lia |].
    destruct (Z.le_ge_cases (- params op) (Z.of_nat (List.length stk)))
      as [Hle | Hge].
    - now rewrite Z.min_l.
    - rewrite Z.min_r by assumption. rewrite Nat2Z.id.
      rewrite firstn_all, skipn_all.
      rewrite firstn_all2, skipn_all2 by lia. reflexivity. }
  unfold rpn_step. rewrite Hop, Hs. split; [reflexivity |].
  intros ->. reflexivity.
Qed.

Lemma arity_not_positive_takes_from_the_bottom_witness :
  rpn_step
    {| operators :=
         [("all", {| name := "all"; precedence := 1; associativity := left;
                     params := 0; method := fun args => VStr "" |})];
       functions := []; parse_raw := true |}
    [VStr "a"; VStr "b"; VStr "c"] "all"
  = Return [VStr ""].
Proof.
  apply (proj2 (arity_not_positive_takes_from_the_bottom
           {| operators :=
                [("all", {| name := "all"; precedence := 1;
                            associativity := left; params := 0;
                            method := fun args => VStr "" |})];
              functions := []; parse_raw := true |}
           [VStr "a"; VStr "b"; VStr "c"] "all"
           {| name := "all"; precedence := 1; associativity := left;
              params := 0; method := fun args => VStr "" |}
           eq_refl ltac:(simpl; lia))).
  reflexivity.
Defined.

(** ** Inputs without parentheses *)

Lemma classify_LeftPara (self : ShuntingYard) (t : string) :
  classify self t = LeftPara <-> t = "(".
Proof.
  unfold classify, isLeftPara. destruct (String.eqb_spec t "(") as [E | E].
  - tauto.
  - destruct (isFunction self t), (isRightPara t), (isOperator self t);
      split; congruence.
Qed.

Lemma classify_RightPara (self : ShuntingYard) (t : string) :
  classify self t = RightPara -> t = ")".
Proof.
  unfold classify, isRightPara. destruct (isLeftPara t); [discriminate |].
  destruct (isFunction self t); [discriminate |].
  destruct (String.eqb_spec t ")") as [E | E]; [auto |].
  destruct (isOperator self t); discriminate.
Qed.

Lemma classify_OperatorSymbol_not_para (self : ShuntingYard) (t : string) :
  classify self t = OperatorSymbol -> t <> "(" /\ t <> ")".
Proof.
  intros H. split; intros ->; unfold classify in H; simpl in H;
    [discriminate |].
  destruct (isFunction self ")"); discriminate.
Qed.

Lemma append_single (x t : string) (c : ascii) :
  (x ++ t)%string = String c EmptyString ->
  x = String c EmptyString \/ t = String c EmptyString.
Proof.
  destruct x as [| a x']; simpl; [auto |].
  intros H. injection H as -> H. left.
  destruct x'; [reflexivity | discriminate].
Qed.

Lemma dispatch_no_para_read (self : ShuntingYard) (st : State) (tok : string) :
  no_para_read self st -> tok <> "(" -> tok <> ")" ->
  exists st', dispatch self st tok = Return st' /\ no_para_read self st'.
Proof.
  intros [Hsign Hstk] Hl Hr. unfold dispatch.
  destruct (classify self tok) eqn:Hc.
  - apply classify_LeftPara in Hc. contradiction.
  - eexists. split; [reflexivity |]. split; [exact Hsign |].
    simpl. intros [E | E]; [congruence | contradiction].
  - apply classify_RightPara in Hc. contradiction.
  - destruct (negb (truthy (lastToken st)) || _).
    + eexists. split; [reflexivity |]. split; [| exact Hstk].
      simpl. intros s E. now injection E as <-.
    + destruct (pop_operators_spec self tok (stack st) (output st))
        as (popped & rest & Hst & _ & _ & Hrun).
      rewrite Hrun. eexists. split; [reflexivity |]. split; [exact Hsign |].
      simpl. intros [E | E]; [congruence |].
      apply Hstk. rewrite Hst. apply in_or_app. now right.
  - eexists. split; [reflexivity |]. split; assumption.
Qed.

Lemma step_no_para_read (self : ShuntingYard) (st : State) (t : string) :
  no_para_read self st -> t <> "(" -> t <> ")" ->
  exists st', step self st t = Return st' /\ no_para_read self st'.
Proof.
  intros Hinv Hl Hr. unfold step. destruct (t =? " ").
  { now exists st. }
  destruct (sign st) as [[| c s] |] eqn:Hs;
    try (now apply dispatch_no_para_read).
  destruct Hinv as [Hsign Hstk]. specialize (Hsign _ Hs).
  apply classify_OperatorSymbol_not_para in Hsign. destruct Hsign as [H1 H2].
  apply dispatch_no_para_read.
  - split; [intros s0 E; discriminate | exact Hstk].
  - intros E. apply append_single in E. tauto.
  - intros E. apply append_single in E. tauto.
Qed.

Lemma prefix_head (d : ascii) (n rest : string) :
  String.prefix (String d n) rest = true -> exists r, rest = String d r.
Proof.
  destruct rest as [| c r]; simpl; [discriminate |].
  destruct (ascii_dec d c) as [-> | _]; [now exists r | discriminate].
Qed.

Lemma find_symbol_prefix (rest : string) :
  forall nits nit,
    find_symbol nits rest = Some nit -> String.prefix nit rest = true.
Proof.
  induction nits as [| n nits IH]; intros nit H; simpl in H; [discriminate |].
  destruct (String.prefix n rest) eqn:E.
  - now injection H as <-.
  - now apply IH.
Qed.

(** The first code unit of a token of the scan is the one at the position. *)
Lemma next_token_head (nits : list string) (c : ascii) (rest' : string) :
  ~ In "" nits ->
  exists r, next_token nits (String c rest') = String c r.
Proof.
  intros Hno. unfold next_token.
  destruct (find_symbol nits (String c rest')) as [nit |] eqn:Hf.
  - assert (Hin := find_symbol_In _ _ _ Hf).
    apply find_symbol_prefix in Hf. destruct nit as [| d n]; [contradiction |].
    destruct (prefix_head _ _ _ Hf) as [r Hr]. injection Hr as <- _.
    now exists n.
  - now exists EmptyString.
Qed.

Lemma occurs_drop (c : ascii) (n : nat) :
  forall s, occurs c (drop n s) -> occurs c s.
Proof.
  unfold occurs. induction n as [| n IH]; intros [| a s] H; simpl in *; auto.
Qed.

Lemma drain_Return :
  forall stk out res,
    drain stk out = Return res -> res = out ++ stk /\ ~ In "(" stk.
Proof.
  induction stk as [| t stk IH]; intros out res H; simpl in H.
  - injection H as <-. rewrite app_nil_r. auto.
  - unfold isLeftPara in H. destruct (String.eqb_spec t "(") as [-> | Hne];
      [discriminate |].
    apply IH in H. destruct H as [-> Hno]. split.
    + now rewrite <- app_assoc.
    + simpl. intros [E | E]; [congruence | contradiction].
Qed.

(** X7.  An input without parentheses always parses: [parse] returns on
    every array of tokens none of which is a parenthesis, and on every
    string in which no parenthesis occurs (the empty string not being a
    registered symbol), whatever the tables are. *)
Theorem input_without_parentheses_parses :
  forall self,
    (forall l,
        ~ In "(" l -> ~ In ")" l ->
        exists out, parse self (Tokens l) = Some (Return out))
    /\ (forall s,
          ~ In "" (op_tokens self) ->
          ~ occurs "(" s -> ~ occurs ")" s ->
          exists out, parse self (Str s) = Some (Return out)).
Proof.
  intros self. split.
  - intros l Hl Hr. simpl.
    assert (H : forall st, no_para_read self st ->
                exists out, parse_tokens self l st = Return out).
    { induction l as [| t l IH]; intros st Hinv; simpl.
      - unfold finish. rewrite drain_all by apply Hinv. eauto.
      - destruct (step_no_para_read self st t Hinv) as (st' & Hs & Hinv').
        + intros ->. apply Hl. now left.
        + intros ->. apply Hr. now left.
        + rewrite Hs. simpl. apply IH; trivial.
          * intros Hin. apply Hl. now right.
          * intros Hin. apply Hr. now right. }
    destruct (H init) as [out Hout].
    + split; [intros s E; discriminate | simpl; tauto].
    + exists out. now rewrite Hout.
  - intros s Hsym Hl Hr. simpl.
    assert (H : forall fuel rest st,
                String.length rest <= fuel ->
                ~ occurs "(" rest -> ~ occurs ")" rest ->
                no_para_read self st ->
                exists out, parse_string fuel self rest st = Some (Return out)).
    { induction fuel as [| fuel IH]; intros [| c rest'] st Hlen Hl' Hr' Hinv;
        simpl in Hlen; cbn [parse_string].
      - unfold finish. rewrite drain_all by apply Hinv. eauto.
      - lia.
      - unfold finish. rewrite drain_all by apply Hinv. eauto.
      - destruct (next_token_head (op_tokens self) c rest' Hsym) as [r Hr0].
        rewrite Hr0.
        destruct (step_no_para_read self st (String c r) Hinv)
          as (st' & Hs & Hinv').
        + intros E. injection E as -> _. apply Hl'. now left.
        + intros E. injection E as -> _. apply Hr'. now left.
        + rewrite Hs. apply IH; trivial.
          * rewrite length_drop. simpl. lia.
          * intros Ho. apply occurs_drop in Ho. contradiction.
          * intros Ho. apply occurs_drop in Ho. contradiction. }
    apply H; trivial.
    split; [intros s0 E; discriminate | simpl; tauto].
Qed.

Lemma input_without_parentheses_parses_witness :
  (exists out,
      parse (default plain_host) (Tokens ["*"; "+"; "2"; "/"])
      = Some (Return out))
  /\ (exists out,
        parse (default plain_host) (Str "1 + * 2 -") = Some (Return out)).
Proof.
  split.
  - apply (proj1 (input_without_parentheses_parses (default plain_host)));
      simpl; intuition discriminate.
  - apply (proj2 (input_without_parentheses_parses (default plain_host)));
      unfold occurs; simpl; intuition discriminate.
Defined.

(** ** Parentheses and the output *)

Lemma classify_FunctionName (self : ShuntingYard) (t : string) :
  classify self t = FunctionName -> In t (keys (functions self)).
Proof.
  unfold classify. destruct (isLeftPara t); [discriminate |].
  destruct (isFunction self t) eqn:E.
  - intros _. now apply existsb_eqb_In.
  - destruct (isRightPara t); [discriminate |].
    destruct (isOperator self t); discriminate.
Qed.

Lemma classify_Literal_not_para (self : ShuntingYard) (t : string) :
  classify self t = Literal -> t <> "(" /\ t <> ")".
Proof.
  intros H. split; intros ->; unfold classify in H; simpl in H;
    [discriminate |].
  destruct (isFunction self ")"); discriminate.
Qed.

Lemma append_last_In (p tok : string) :
  forall out,
    In p (append_last out tok) ->
    In p out \/ exists x, In x out /\ p = (x ++ tok)%string.
Proof.
  induction out as [| x out IH]; intros H; [contradiction |].
  destruct out as [| y out].
  - simpl in H. destruct H as [<- | []]. right. exists x. simpl. auto.
  - change (append_last (x :: y :: out) tok)
      with (x :: append_last (y :: out) tok) in H.
    destruct H as [<- | H]; [left; now left |].
    destruct (IH H) as [Hin | (z & Hz & ->)].
    + left. now right.
    + right. exists z. split; [now right | reflexivity].
Qed.

Lemma yields_to_registered (self : ShuntingYard) (token top : string) :
  yields_to self token top -> In top (keys (operators self)).
Proof.
  intros (o1 & o2 & _ & H & _). apply lookup_In_keys. eauto.
Qed.

Lemma dispatch_para_free (self : ShuntingYard) (st st' : State) (tok : string) :
  ~ In "(" (keys (operators self)) ->
  ~ In ")" (keys (functions self)) ->
  para_free st ->
  dispatch self st tok = Return st' ->
  para_free st'.
Proof.
  intros Hop Hfn (Ho1 & Ho2 & Hs). unfold dispatch.
  destruct (classify self tok) eqn:Hc.
  - intros H. injection H as <-. repeat split; trivial. simpl.
    apply classify_LeftPara in Hc. subst tok.
    intros [E | E]; [discriminate | contradiction].
  - intros H. injection H as <-. repeat split; trivial. simpl.
    apply classify_FunctionName in Hc.
    intros [E | E]; [congruence | contradiction].
  - destruct (close_para self (stack st) (output st)) as [[stk' out'] |] eqn:Hcl;
      [| discriminate].
    intros H. injection H as <-.
    destruct (close_para_spec _ _ _ _ _ Hcl)
      as (popped & marker & Hstk & Hall & _ & ->).
    rewrite Forall_forall in Hall.
    assert (Hsub : forall x, In x popped -> In x (stack st)).
    { intros x Hx. rewrite Hstk. apply in_or_app. now left. }
    repeat split; simpl.
    + intros Hin. apply in_app_or in Hin. destruct Hin as [Hin | Hin];
        [contradiction |].
      apply filter_In in Hin. destruct Hin as [Hin _].
      now destruct (Hall _ Hin).
    + intros Hin. apply in_app_or in Hin. destruct Hin as [Hin | Hin];
        [contradiction |].
      apply filter_In in Hin. destruct Hin as [Hin _]. auto.
    + intros Hin. apply Hs. rewrite Hstk. apply in_or_app. right. now right.
  - destruct (negb (truthy (lastToken st)) || _).
    + intros H. injection H as <-. repeat split; assumption.
    + destruct (pop_operators_spec self tok (stack st) (output st))
        as (popped & rest & Hstk & Hall & _ & Hrun).
      rewrite Hrun. intros H. injection H as <-.
      rewrite Forall_forall in Hall.
      assert (Hsub : forall x, In x popped -> In x (stack st)).
      { intros x Hx. rewrite Hstk. apply in_or_app. now left. }
      repeat split; simpl.
      * intros Hin. apply in_app_or in Hin. destruct Hin as [Hin | Hin];
          [contradiction |].
        apply Hop. exact (yields_to_registered _ _ _ (Hall _ Hin)).
      * intros Hin. apply in_app_or in Hin. destruct Hin as [Hin | Hin];
          [contradiction | auto].
      * intros [E | Hin].
        -- apply classify_OperatorSymbol_not_para in Hc. now destruct Hc.
        -- apply Hs. rewrite Hstk. apply in_or_app. now right.
  - apply classify_Literal_not_para in Hc. destruct Hc as [Hl Hr].
    intros H. injection H as <-. repeat split; trivial; simpl;
      destruct (negb (truthy (lastToken st)) || _);
      intros Hin;
      try (apply in_app_or in Hin; destruct Hin as [Hin | [E | []]];
           [contradiction | congruence]);
      apply append_last_In in Hin;
      destruct Hin as [Hin | (x & Hx & E)]; try contradiction;
      symmetry in E; apply append_single in E;
      destruct E as [-> | ->]; contradiction.
Qed.

Lemma step_para_free (self : ShuntingYard) (st st' : State) (t : string) :
  ~ In "(" (keys (operators self)) ->
  ~ In ")" (keys (functions self)) ->
  para_free st ->
  step self st t = Return st' ->
  para_free st'.
Proof.
  intros Hop Hfn Hinv. unfold step. destruct (t =? " ").
  - intros H. now injection H as <-.
  - destruct (sign st) as [[| c s] |]; intros H;
      apply (dispatch_para_free self _ _ _ Hop Hfn) in H; assumption.
Qed.

Lemma finish_para_free (st : State) (out : list string) :
  para_free st -> finish st = Return out ->
  ~ In "(" out /\ ~ In ")" out.
Proof.
  intros (Ho1 & Ho2 & Hs) H. apply drain_Return in H.
  destruct H as [-> Hno].
  split; intros Hin; apply in_app_or in Hin; tauto.
Qed.

(** X8.  No token of the sequence that [parse] returns is a parenthesis,
    as long as the left parenthesis is not registered as an operator and
    the right parenthesis is not registered as a function. *)
Theorem output_has_no_parenthesis :
  forall self str out,
    ~ In "(" (keys (operators self)) ->
    ~ In ")" (keys (functions self)) ->
    parse self str = Some (Return out) ->
    ~ In "(" out /\ ~ In ")" out.
Proof.
  intros self str out Hop Hfn.
  assert (Hinit : para_free init) by (repeat split; simpl; tauto).
  destruct str as [s | l]; simpl.
  - generalize init Hinit. generalize (String.length s) as fuel. intros fuel.
    revert s. induction fuel as [| fuel IH]; intros [| c rest'] st Hinv H;
      cbn [parse_string] in H.
    + injection H as H. now apply (finish_para_free st).
    + discriminate.
    + injection H as H. now apply (finish_para_free st).
    + destruct (step self st _) as [st' | e] eqn:Hs; [| discriminate].
      exact (IH _ st' (step_para_free self _ _ _ Hop Hfn Hinv Hs) H).
  - intros H. injection H as H. revert H. generalize init Hinit.
    induction l as [| t l IH]; intros st Hinv H; simpl in H.
    + now apply (finish_para_free st).
    + destruct (step self st t) as [st' | e] eqn:Hs; simpl in H;
        [| discriminate].
      apply (IH st'); [| exact H].
      exact (step_para_free self _ _ _ Hop Hfn Hinv Hs).
Qed.

Lemma output_has_no_parenthesis_witness :
  ~ In "(" ["1"; "2"; "3"; "+"; "*"] /\ ~ In ")" ["1"; "2"; "3"; "+"; "*"].
Proof.
  apply (output_has_no_parenthesis (default plain_host) (Str "1*(2+3)")).
  - simpl. intuition discriminate.
  - simpl. tauto.
  - reflexivity.
Defined.

(** ** Expressions of a given shape *)

(** A literal after the start, a left parenthesis or an operator opens a
    new entry of the output. *)
Lemma step_operand_new (self : ShuntingYard) (st : State) (t : string) :
  operand self t ->
  truthy (sign st) = false ->
  negb (truthy (lastToken st))
  || match lastToken st with
     | Some l => isLeftPara l || isOperator self l
     | None => false
     end = true ->
  step self st t =
    Return {| output := output st ++ [t]; stack := stack st;
              sign := sign st; lastToken := Some t |}.
Proof.
  intros (Hc & _ & Hsp) Hsign Hlast. unfold step, dispatch.
  destruct (String.eqb_spec t " ") as [E | _]; [contradiction |].
  destruct (sign st) as [[| c s] |]; try discriminate;
    now rewrite Hc, Hlast.
Qed.

(** An operator after an operand goes through the operator loop. *)
Lemma step_operator_after_operand (self : ShuntingYard) (st : State)
    (t last : string) (d : Operator) :
  operator_token self t d ->
  truthy (sign st) = false ->
  lastToken st = Some last -> last <> "" -> last <> "(" ->
  step self st t =
    Return {| output := snd (pop_operators self t (stack st) (output st));
              stack := t :: fst (pop_operators self t (stack st) (output st));
              sign := sign st; lastToken := Some t |}.
Proof.
  intros (Hc & Hsp & _) Hsign Hlast Hne Hpara. unfold step, dispatch.
  destruct (String.eqb_spec t " ") as [E | _]; [contradiction |].
  assert (Hheld : negb (truthy (lastToken st))
                  || match lastToken st with
                     | Some l => l =? "("
                     | None => false
                     end = false).
  { rewrite Hlast. apply String.eqb_neq in Hpara. rewrite Hpara.
    destruct last; [contradiction | reflexivity]. }
  destruct (sign st) as [[| c s] |]; try discriminate;
    rewrite Hc, Hheld;
    now destruct (pop_operators self t (stack st) (output st)).
Qed.

Lemma literal_unregistered (self : ShuntingYard) (t : string) :
  classify self t = Literal ->
  isOperator self t = false /\ isFunction self t = false.
Proof.
  unfold classify.
  destruct (isLeftPara t), (isFunction self t), (isRightPara t),
    (isOperator self t); intros Hc; split; congruence.
Qed.

Lemma operand_not_para (self : ShuntingYard) (t : string) :
  operand self t -> t <> "" /\ t <> "(".
Proof.
  intros (Hc & Hne & _). split; [exact Hne |].
  now apply classify_Literal_not_para in Hc.
Qed.

Lemma operator_token_isOperator (self : ShuntingYard) (t : string)
    (d : Operator) :
  operator_token self t d ->
  isOperator self t = true /\ isLeftPara t = false /\
  descriptor self t = Some d.
Proof.
  intros (Hc & _ & Hl). split; [| split].
  - apply isOperator_lookup. eauto.
  - apply classify_OperatorSymbol_not_para in Hc. destruct Hc as [Hc _].
    unfold isLeftPara. now apply String.eqb_neq.
  - apply descriptor_Some. now apply found_own_operator.
Qed.

(** X9.  For operands [a], [b] and an operator [o], whatever the tables
    are: [parse] turns the tokens [a o b] into [a b o]; when neither operand
    names a property of [Object.prototype] and the arity of [o] is 2,
    [resolve] gives the behaviour of [o] applied to the values of [a] and
    [b], in this order. *)
Theorem binary_expression :
  forall self a o b d,
    operand self a -> operand self b -> operator_token self o d ->
    parse self (Tokens [a; o; b]) = Some (Return [a; b; o])
    /\ (inherited a = false -> inherited b = false ->
        params d = 2%Z ->
        resolve self (Tokens [a; o; b])
        = Some (Return (method d [literal self a; literal self b]))).
Proof.
  intros self a o b d Ha Hb Ho.
  destruct (operand_not_para self a Ha) as [Ha1 Ha2].
  destruct (operator_token_isOperator self o d Ho) as (Ho1 & Ho2 & Ho3).
  assert (Hp : parse self (Tokens [a; o; b]) = Some (Return [a; b; o])).
  { simpl.
    rewrite (step_operand_new self init a Ha eq_refl eq_refl). simpl.
    rewrite (step_operator_after_operand self _ o a d Ho);
      [| reflexivity | reflexivity | exact Ha1 | exact Ha2].
    simpl.
    rewrite (step_operand_new self _ b Hb);
      [| reflexivity | simpl; rewrite Ho1; now rewrite !orb_true_r].
    simpl. unfold finish. simpl. now rewrite Ho2. }
  split; [exact Hp |].
  intros Hia Hib Hd. unfold resolve. rewrite Hp. unfold resolveRpn.
  destruct (literal_unregistered self a (proj1 Ha)) as [Hao Haf].
  destruct (literal_unregistered self b (proj1 Hb)) as [Hbo Hbf].
  apply descriptor_Some in Ho3.
  cbn [rpn_run]. rewrite (rpn_step_literal self [] a Hao Haf Hia).
  cbn [bind app]. rewrite (rpn_step_literal self _ b Hbo Hbf Hib).
  cbn [bind app]. unfold rpn_step. rewrite Ho3, Hd. reflexivity.
Qed.

Lemma binary_expression_witness :
  parse (default plain_host) (Tokens ["7"; "-"; "x"])
  = Some (Return ["7"; "x"; "-"])
  /\ resolve (default plain_host) (Tokens ["7"; "-"; "x"])
     = Some (Return (js_sub plain_host (literal (default plain_host) "7")
                                       (literal (default plain_host) "x"))).
Proof.
  destruct (binary_expression (default plain_host) "7" "-" "x"
              {| name := "-"; precedence := 2; associativity := left;
                 params := 2;
                 method := fun args =>
                   js_sub plain_host (arg 0 args) (arg 1 args) |}
              ltac:(repeat split; discriminate)
              ltac:(repeat split; discriminate)
              ltac:(repeat split; discriminate))
    as [H1 H2].
  split; [exact H1 | exact (H2 eq_refl eq_refl eq_refl)].
Defined.

Lemma splice_neg_exact (below args : list Value) :
  args <> [] ->
  splice_neg (Z.of_nat (List.length args)) (below ++ args) = (below, args).
Proof.
  intros Hne. unfold splice_neg.
  assert (0 < List.length args) by (destruct args; [congruence | simpl; lia]).
  destruct (Z.ltb_spec (- Z.of_nat (List.length args)) 0) as [_ | Hge]; [| lia].
  rewrite length_app, Z.max_l by lia.
  replace (Z.to_nat (Z.of_nat (List.length below + List.length args)
                     + - Z.of_nat (List.length args)))
    with (List.length below) by lia.
  rewrite firstn_app, skipn_app, firstn_all, skipn_all, Nat.sub_diag.
  simpl. now rewrite app_nil_r.
Qed.

Lemma rpn_step_operand (self : ShuntingYard) (stk : list Value) (t : string) :
  operand self t -> inherited t = false ->
  rpn_step self stk t = Return (stk ++ [literal self t]).
Proof.
  intros Ht Hi. destruct (literal_unregistered self t (proj1 Ht)) as [Ho Hf].
  now apply rpn_step_literal.
Qed.

Lemma rpn_step_apply (self : ShuntingYard) (below args : list Value)
    (t : string) (d : Operator) :
  descriptor self t = Some d ->
  args <> [] ->
  params d = Z.of_nat (List.length args) ->
  rpn_step self (below ++ args) t = Return (below ++ [method d args]).
Proof.
  intros Hd Hne Hp. apply descriptor_Some in Hd. unfold rpn_step.
  now rewrite Hd, Hp, splice_neg_exact.
Qed.

(** X10.  For operands [a], [b], [c] and operators [o1], [o2], whatever the
    tables are: [parse] turns [a o1 b o2 c] into [a b o1 c o2] when [o2]
    yields to [o1] (it is left-associative with a precedence at most that of
    [o1], or its precedence is strictly less) and into [a b c o2 o1]
    otherwise; when no operand names a property of [Object.prototype] and
    both arities are 2, [resolve] then computes [(a o1 b) o2 c] in the first
    case and [a o1 (b o2 c)] in the second. *)
Theorem precedence_decides_grouping :
  forall self a o1 b o2 c d1 d2,
    operand self a -> operand self b -> operand self c ->
    operator_token self o1 d1 -> operator_token self o2 d2 ->
    let yields :=
      (leftAssoc d2 && lessThenEqual d2 d1) || lessThen d2 d1 in
    parse self (Tokens [a; o1; b; o2; c])
    = Some (Return (if yields then [a; b; o1; c; o2] else [a; b; c; o2; o1]))
    /\ (inherited a = false -> inherited b = false -> inherited c = false ->
        params d1 = 2%Z -> params d2 = 2%Z ->
        resolve self (Tokens [a; o1; b; o2; c])
        = Some (Return
            (if yields
             then method d2 [method d1 [literal self a; literal self b];
                             literal self c]
             else method d1 [literal self a;
                             method d2 [literal self b; literal self c]]))).
Proof.
  intros self a o1 b o2 c d1 d2 Ha Hb Hc Ho1 Ho2 yields.
  destruct (operand_not_para self a Ha) as [Ha1 Ha2].
  destruct (operand_not_para self b Hb) as [Hb1 Hb2].
  destruct (operator_token_isOperator self o1 d1 Ho1) as (Hi1 & Hp1 & Hd1).
  destruct (operator_token_isOperator self o2 d2 Ho2) as (Hi2 & Hp2 & Hd2).
  assert (Hl1 : lookup (operators self) o1 = Some d1) by apply Ho1.
  assert (Hl2 : lookup (operators self) o2 = Some d2) by apply Ho2.
  assert (Hp : parse self (Tokens [a; o1; b; o2; c])
               = Some (Return (if yields then [a; b; o1; c; o2]
                               else [a; b; c; o2; o1]))).
  { simpl.
    rewrite (step_operand_new self init a Ha eq_refl eq_refl). simpl.
    rewrite (step_operator_after_operand self _ o1 a d1 Ho1);
      [| reflexivity | reflexivity | exact Ha1 | exact Ha2].
    simpl.
    rewrite (step_operand_new self _ b Hb);
      [| reflexivity | simpl; rewrite Hi1; now rewrite !orb_true_r].
    simpl.
    rewrite (step_operator_after_operand self _ o2 b d2 Ho2);
      [| reflexivity | reflexivity | exact Hb1 | exact Hb2].
    simpl. rewrite Hl1, Hl2. fold yields. destruct yields; simpl.
    - rewrite (step_operand_new self _ c Hc);
        [| reflexivity | simpl; rewrite Hi2; now rewrite !orb_true_r].
      simpl. unfold finish. simpl. now rewrite Hp2.
    - rewrite (step_operand_new self _ c Hc);
        [| reflexivity | simpl; rewrite Hi2; now rewrite !orb_true_r].
      simpl. unfold finish. simpl. now rewrite Hp2, Hp1. }
  split; [exact Hp |].
  intros Hia Hib Hic Hn1 Hn2. unfold resolve. rewrite Hp. unfold resolveRpn.
  destruct yields; cbn [rpn_run].
  - rewrite (rpn_step_operand self [] a Ha Hia). cbn [bind app].
    rewrite (rpn_step_operand self _ b Hb Hib). cbn [bind app].
    assert (E1 := rpn_step_apply self [] [literal self a; literal self b]
                    o1 d1 Hd1 ltac:(discriminate) Hn1).
    cbn [app] in E1. rewrite E1. cbn [bind].
    rewrite (rpn_step_operand self _ c Hc Hic). cbn [bind app].
    assert (E2 := rpn_step_apply self []
                    [method d1 [literal self a; literal self b];
                     literal self c]
                    o2 d2 Hd2 ltac:(discriminate) Hn2).
    cbn [app] in E2. now rewrite E2.
  - rewrite (rpn_step_operand self [] a Ha Hia). cbn [bind app].
    rewrite (rpn_step_operand self _ b Hb Hib). cbn [bind app].
    rewrite (rpn_step_operand self _ c Hc Hic). cbn [bind app].
    assert (E2 := rpn_step_apply self [literal self a]
                    [literal self b; literal self c] o2 d2
                    Hd2 ltac:(discriminate) Hn2).
    cbn [app] in E2. rewrite E2. cbn [bind].
    assert (E1 := rpn_step_apply self []
                    [literal self a;
                     method d2 [literal self b; literal self c]]
                    o1 d1 Hd1 ltac:(discriminate) Hn1).
    cbn [app] in E1. now rewrite E1.
Qed.

Lemma precedence_decides_grouping_witness :
  parse (default plain_host) (Tokens ["a"; "^"; "b"; "^"; "c"])
  = Some (Return ["a"; "b"; "c"; "^"; "^"])
  /\ resolve (default plain_host) (Tokens ["a"; "^"; "b"; "^"; "c"])
     = Some (Return
         (js_pow plain_host (literal (default plain_host) "a")
            (js_pow plain_host (literal (default plain_host) "b")
                               (literal (default plain_host) "c")))).
Proof.
  destruct (precedence_decides_grouping (default plain_host)
           "a" "^" "b" "^" "c"
           {| name := "^"; precedence := 4; associativity := right;
              params := 2;
              method := fun args =>
                js_pow plain_host (arg 0 args) (arg 1 args) |}
           {| name := "^"; precedence := 4; associativity := right;
              params := 2;
              method := fun args =>
                js_pow plain_host (arg 0 args) (arg 1 args) |}
           ltac:(repeat split; discriminate)
           ltac:(repeat split; discriminate)
           ltac:(repeat split; discriminate)
           ltac:(repeat split; discriminate)
           ltac:(repeat split; discriminate))
    as [H1 H2].
  split; [exact H1 | exact (H2 eq_refl eq_refl eq_refl eq_refl eq_refl)].
Defined.

Lemma step_push (self : ShuntingYard) (st : State) (t : string) :
  t <> " " -> truthy (sign st) = false ->
  classify self t = LeftPara \/ classify self t = FunctionName ->
  step self st t =
    Return {| output := output st; stack := t :: stack st;
              sign := sign st; lastToken := Some t |}.
Proof.
  intros Hsp Hsign Hc. unfold step, dispatch.
  destruct (String.eqb_spec t " ") as [E | _]; [contradiction |].
  destruct (sign st) as [[| c s] |]; try discriminate;
    destruct Hc as [-> | ->]; reflexivity.
Qed.

(** X11.  For a function name [f] and an operand [a], whatever the tables
    are (the right parenthesis not being a function name): [parse] turns the
    call [f ( a )] into [a f], the function marker being emitted by the
    final loop; when [a] names no property of [Object.prototype] and the
    descriptor that [resolveRpn] finds for [f] has arity 1, [resolve] gives
    its behaviour applied to the value of [a]. *)
Theorem function_call :
  forall self f a d,
    classify self f = FunctionName -> f <> " " ->
    operand self a ->
    isFunction self ")" = false ->
    parse self (Tokens [f; "("; a; ")"]) = Some (Return [a; f])
    /\ (inherited a = false ->
        descriptor self f = Some d -> params d = 1%Z ->
        resolve self (Tokens [f; "("; a; ")"])
        = Some (Return (method d [literal self a]))).
Proof.
  intros self f a d Hf Hsp Ha Hr.
  assert (Hfl : isLeftPara f = false).
  { unfold classify in Hf. destruct (isLeftPara f); [discriminate | reflexivity]. }
  assert (Hp : parse self (Tokens [f; "("; a; ")"]) = Some (Return [a; f])).
  { cbn [parse parse_tokens].
    rewrite (step_push self init f Hsp eq_refl (or_intror Hf)). cbn [bind].
    rewrite (step_push self _ "(");
      [| discriminate | reflexivity | left; now apply classify_LeftPara].
    cbn [bind].
    rewrite (step_operand_new self _ a Ha); [| reflexivity | reflexivity].
    cbn [bind]. unfold step, dispatch, classify. simpl. rewrite Hr. simpl.
    unfold finish. simpl. now rewrite Hfl. }
  split; [exact Hp |].
  intros Hia Hd Hn. unfold resolve. rewrite Hp. unfold resolveRpn.
  cbn [rpn_run]. rewrite (rpn_step_operand self [] a Ha Hia). cbn [bind app].
  assert (E := rpn_step_apply self [] [literal self a] f d Hd
                 ltac:(discriminate) Hn).
  cbn [app] in E. now rewrite E.
Qed.

Lemma function_call_witness :
  parse (with_sq plain_host) (Tokens ["sq"; "("; "12"; ")"])
  = Some (Return ["12"; "sq"])
  /\ resolve (with_sq plain_host) (Tokens ["sq"; "("; "12"; ")"])
     = Some (Return (js_mul plain_host (literal (with_sq plain_host) "12")
                                       (literal (with_sq plain_host) "12"))).
Proof.
  destruct (function_call (with_sq plain_host) "sq" "12"
              {| name := "sq"; precedence := 0; associativity := left;
                 params := 1;
                 method := fun args =>
                   js_mul plain_host (arg 0 args) (arg 0 args) |}
              eq_refl ltac:(discriminate)
              ltac:(repeat split; discriminate) eq_refl)
    as [H1 H2].
  split; [exact H1 | exact (H2 eq_refl eq_refl eq_refl)].
Defined.

(** ** Literals in a string *)

Lemma append_empty_r (s : string) : (s ++ "")%string = s.
Proof.
  induction s as [| c s IH]; simpl; [reflexivity | now rewrite IH].
Qed.

Lemma append_assoc (s t u : string) :
  ((s ++ t) ++ u)%string = (s ++ (t ++ u))%string.
Proof.
  induction s as [| c s IH]; simpl; [reflexivity | now rewrite IH].
Qed.

Lemma symbol_free_tail (nits : list string) (c : ascii) (r : string) :
  symbol_free nits (String c r) -> symbol_free nits r.
Proof.
  intros H nit Hin. specialize (H nit Hin). destruct nit as [| d n]; [exact H |].
  intros Ho. apply H. unfold occurs in *. simpl. now right.
Qed.

Lemma symbol_free_next_token (nits : list string) (c : ascii) (r : string) :
  symbol_free nits (String c r) ->
  next_token nits (String c r) = String c EmptyString.
Proof.
  intros H. unfold next_token. rewrite find_symbol_none; [reflexivity |].
  apply Forall_forall. intros nit Hin. specialize (H nit Hin).
  destruct nit as [| d n]; [contradiction |]. simpl.
  destruct (ascii_dec d c) as [-> | _]; [| reflexivity].
  exfalso. apply H. unfold occurs. simpl. now left.
Qed.

Lemma symbol_free_unregistered (self : ShuntingYard) (c : ascii) (r : string) :
  symbol_free (op_tokens self) (String c r) ->
  isOperator self (String c EmptyString) = false /\
  isFunction self (String c EmptyString) = false.
Proof.
  intros H. unfold isOperator, isFunction.
  split; apply not_true_is_false; rewrite existsb_eqb_In; intros Hin;
    (apply (H (String c EmptyString));
     [unfold op_tokens; apply in_or_app; auto
     | unfold occurs; simpl; now left]).
Qed.

Lemma single_is_operand (self : ShuntingYard) (c : ascii) (r : string) :
  symbol_free (op_tokens self) (String c r) ->
  c <> "("%char -> c <> ")"%char -> c <> " "%char ->
  operand self (String c EmptyString).
Proof.
  intros H Hl Hr Hsp.
  destruct (symbol_free_unregistered self c r H) as [Ho Hf].
  repeat split; try congruence.
  unfold classify, isLeftPara, isRightPara. rewrite Ho, Hf.
  destruct (String.eqb_spec (String c EmptyString) "(") as [E | _];
    [congruence |].
  destruct (String.eqb_spec (String c EmptyString) ")") as [E | _];
    [congruence | reflexivity].
Qed.

Lemma literal_continues (self : ShuntingYard) :
  forall fuel s acc last,
    String.length s <= fuel ->
    symbol_free (op_tokens self) s ->
    ~ occurs "(" s -> ~ occurs ")" s ->
    last <> "" -> isLeftPara last = false -> isOperator self last = false ->
    parse_string fuel self s
      {| output := [acc]; stack := []; sign := None; lastToken := Some last |}
    = Some (Return [(acc ++ without_spaces s)%string]).
Proof.
  induction fuel as [| fuel IH]; intros [| c r] acc last Hlen Hfree Hl Hr
    Hne Hlp Hop; simpl in Hlen; cbn [parse_string without_spaces].
  - unfold finish. simpl. now rewrite append_empty_r.
  - lia.
  - unfold finish. simpl. now rewrite append_empty_r.
  - rewrite (symbol_free_next_token _ c r Hfree). cbn [String.length drop].
    assert (Hl' : ~ occurs "(" r) by (intros H; apply Hl; now right).
    assert (Hr' : ~ occurs ")" r) by (intros H; apply Hr; now right).
    assert (Hfree' := symbol_free_tail _ c r Hfree).
    destruct (Ascii.eqb_spec c " ") as [-> | Hsp].
    + change (step self _ " ") with
        (Return {| output := [acc]; stack := []; sign := None;
                   lastToken := Some last |}).
      apply IH; trivial. lia.
    + assert (Hc : operand self (String c EmptyString)).
      { apply (single_is_operand self c r Hfree); trivial.
        - intros ->. apply Hl. now left.
        - intros ->. apply Hr. now left. }
      destruct Hc as (Hc & _ & Hsp').
      unfold step, dispatch.
      destruct (String.eqb_spec (String c EmptyString) " ") as [E | _];
        [contradiction |].
      cbn [sign lastToken output stack]. rewrite Hc, Hlp, Hop.
      destruct last as [| l0 last']; [contradiction |].
      cbn [truthy negb orb append_last].
      rewrite (IH r (acc ++ String c EmptyString)%string (String c EmptyString));
        trivial; try lia; try discriminate.
      * rewrite append_assoc. reflexivity.
      * unfold isLeftPara. apply String.eqb_neq. intros E. injection E as ->.
        apply Hl. now left.
      * apply (symbol_free_unregistered self c r Hfree).
Qed.

(** X12.  A string in which no registered symbol begins (no symbol is empty
    or starts with a character of the string) and no parenthesis occurs is
    one literal: [parse] returns it as a single token, its spaces removed,
    and returns the empty sequence when the string is blank or empty. *)
Theorem literal_string_is_one_token :
  forall self s,
    symbol_free (op_tokens self) s ->
    ~ occurs "(" s -> ~ occurs ")" s ->
    parse self (Str s) =
    Some (Return match without_spaces s with
                 | EmptyString => []
                 | w => [w]
                 end).
Proof.
  intros self s. simpl. generalize (Nat.le_refl (String.length s)).
  generalize (String.length s) at 2 3 as fuel. intros fuel. revert s.
  induction fuel as [| fuel IH]; intros [| c r] Hlen Hfree Hl Hr;
    simpl in Hlen; cbn [parse_string without_spaces]; try reflexivity; [lia |].
  rewrite (symbol_free_next_token _ c r Hfree). cbn [String.length drop].
  assert (Hl' : ~ occurs "(" r) by (intros H; apply Hl; now right).
  assert (Hr' : ~ occurs ")" r) by (intros H; apply Hr; now right).
  assert (Hfree' := symbol_free_tail _ c r Hfree).
  destruct (Ascii.eqb_spec c " ") as [-> | Hsp].
  - change (step self init " ") with (Return init).
    apply IH; trivial. lia.
  - assert (Hc : operand self (String c EmptyString)).
    { apply (single_is_operand self c r Hfree); trivial.
      - intros ->. apply Hl. now left.
      - intros ->. apply Hr. now left. }
    rewrite (step_operand_new self init _ Hc eq_refl eq_refl).
    cbn [output stack sign init app].
    rewrite (literal_continues self fuel r (String c EmptyString)
               (String c EmptyString)); trivial; try lia; try discriminate.
    + unfold isLeftPara. apply String.eqb_neq. intros E. injection E as ->.
      apply Hl. now left.
    + apply (symbol_free_unregistered self c r Hfree).
Qed.

Lemma literal_string_is_one_token_witness :
  parse (default plain_host) (Str " 12 345.6 ") = Some (Return ["12345.6"]).
Proof.
  apply (literal_string_is_one_token (default plain_host) " 12 345.6 ").
  - intros nit Hin. simpl in Hin. unfold occurs. simpl.
    repeat (destruct Hin as [<- | Hin]; [intuition discriminate |]).
    contradiction.
  - unfold occurs. simpl. intuition discriminate.
  - unfold occurs. simpl. intuition discriminate.
Defined.

(** ** Enclosing parentheses *)

Lemma close_para_app (self : ShuntingYard) (extra : list string) :
  forall stk out stk' out',
    close_para self stk out = Some (stk', out') ->
    close_para self (stk ++ extra) out = Some (stk' ++ extra, out').
Proof.
  induction stk as [| t stk IH]; intros out stk' out' H; simpl in *.
  - discriminate.
  - destruct ((t =? "") || isLeftPara t).
    + now injection H as <- <-.
    + now apply IH.
Qed.

Lemma close_para_prefix (self : ShuntingYard) (rest : list string) :
  forall p out,
    Forall (fun t => t <> "" /\ t <> "(") p ->
    close_para self (p ++ "(" :: rest) out
    = Some (rest, out ++ filter (fun t => negb (isFunction self t)) p).
Proof.
  induction p as [| t p IH]; intros out Hall; simpl.
  - now rewrite app_nil_r.
  - inversion Hall as [| ? ? [H1 H2] Hrest]; subst.
    apply String.eqb_neq in H1. unfold isLeftPara.
    apply String.eqb_neq in H2. rewrite H1, H2. simpl.
    rewrite IH by assumption.
    destruct (isFunction self t); simpl; [reflexivity |].
    now rewrite <- app_assoc.
Qed.

Lemma pop_operators_above_para (self : ShuntingYard) (tok : string) :
  lookup (operators self) "(" = None ->
  forall stk out,
    pop_operators self tok (stk ++ ["("]) out
    = (fst (pop_operators self tok stk out) ++ ["("],
       snd (pop_operators self tok stk out)).
Proof.
  intros Hp. induction stk as [| top stk IH]; intros out; simpl.
  - rewrite Hp. now destruct (lookup (operators self) tok).
  - destruct (lookup (operators self) tok) as [d |]; [| reflexivity].
    destruct (lookup (operators self) top) as [d' |]; [| reflexivity].
    destruct ((leftAssoc d && lessThenEqual d d') || lessThen d d');
      [apply IH | reflexivity].
Qed.

Lemma inside_para_conditions (st st' : State) (self : ShuntingYard) :
  lastToken st' = lastToken st \/
  (lastToken st = None /\ lastToken st' = Some "(") ->
  (negb (truthy (lastToken st'))
   || match lastToken st' with Some t => t =? "(" | None => false end
   = negb (truthy (lastToken st))
     || match lastToken st with Some t => t =? "(" | None => false end)
  /\ (negb (truthy (lastToken st'))
      || match lastToken st' with
         | Some t => isLeftPara t || isOperator self t
         | None => false
         end
      = negb (truthy (lastToken st))
        || match lastToken st with
           | Some t => isLeftPara t || isOperator self t
           | None => false
           end).
Proof.
  intros [-> | [-> ->]]; split; reflexivity.
Qed.

Lemma dispatch_inside_para (self : ShuntingYard) (st st' st1 : State)
    (tok : string) :
  lookup (operators self) "(" = None ->
  inside_para st st' ->
  dispatch self st tok = Return st1 ->
  exists st1', dispatch self st' tok = Return st1' /\ inside_para st1 st1'.
Proof.
  intros Hp (Ho & Hs & Hg & Hl).
  destruct (inside_para_conditions st st' self Hl) as [Hheld Hnew].
  unfold dispatch. rewrite Ho, Hs, Hg, Hheld, Hnew.
  destruct (classify self tok).
  - intros H. injection H as <-. eexists. split; [reflexivity |].
    repeat split; auto.
  - intros H. injection H as <-. eexists. split; [reflexivity |].
    repeat split; auto.
  - destruct (close_para self (stack st) (output st)) as [[stk' out'] |] eqn:Hc;
      [| discriminate].
    rewrite (close_para_app self ["("] _ _ _ _ Hc).
    intros H. injection H as <-. eexists. split; [reflexivity |].
    repeat split; auto.
  - destruct (negb (truthy (lastToken st)) || _).
    + intros H. injection H as <-. eexists. split; [reflexivity |].
      repeat split; auto.
    + rewrite (pop_operators_above_para self tok Hp).
      destruct (pop_operators self tok (stack st) (output st)) as [stk' out'].
      intros H. injection H as <-. eexists. split; [reflexivity |].
      repeat split; auto.
  - intros H. injection H as <-. eexists. split; [reflexivity |].
    repeat split; auto.
Qed.

Lemma step_inside_para (self : ShuntingYard) (st st' st1 : State)
    (t : string) :
  lookup (operators self) "(" = None ->
  inside_para st st' ->
  step self st t = Return st1 ->
  exists st1', step self st' t = Return st1' /\ inside_para st1 st1'.
Proof.
  intros Hp Hin. unfold step. destruct (t =? " ").
  - intros H. injection H as <-. now exists st'.
  - assert (Hg : sign st' = sign st) by apply Hin. rewrite Hg.
    destruct (sign st) as [[| c s] |] eqn:E; intros H.
    + exact (dispatch_inside_para self st st' st1 t Hp Hin H).
    + apply (dispatch_inside_para self _
               {| output := output st'; stack := stack st'; sign := None;
                  lastToken := lastToken st' |} _ _ Hp) in H; [exact H |].
      destruct Hin as (Ho & Hs & _ & Hl). repeat split; auto.
    + exact (dispatch_inside_para self st st' st1 t Hp Hin H).
Qed.

Lemma run_inside_para (self : ShuntingYard) :
  lookup (operators self) "(" = None ->
  forall l st st' st1,
    inside_para st st' ->
    run self l st = Return st1 ->
    exists st1', run self l st' = Return st1' /\ inside_para st1 st1'.
Proof.
  intros Hp. induction l as [| t l IH]; intros st st' st1 Hin H; simpl in *.
  - injection H as <-. now exists st'.
  - destruct (step self st t) as [st2 | e] eqn:Hs; simpl in H; [| discriminate].
    destruct (step_inside_para self _ _ _ _ Hp Hin Hs) as (st2' & Hs' & Hin').
    rewrite Hs'. simpl. now apply (IH st2).
Qed.

Lemma parse_tokens_app (self : ShuntingYard) (l2 : list string) :
  forall l st,
    parse_tokens self (l ++ l2) st
    = bind (run self l st) (parse_tokens self l2).
Proof.
  induction l as [| t l IH]; intros st; simpl; [reflexivity |].
  destruct (step self st t); simpl; [apply IH | reflexivity].
Qed.

Lemma first_occurrence (x : string) :
  forall l, In x l -> exists p q, l = p ++ x :: q /\ ~ In x p.
Proof.
  induction l as [| y l IH]; intros Hin; [contradiction |].
  destruct (string_dec y x) as [-> | Hne].
  - exists [], l. auto.
  - destruct Hin as [E | Hin]; [contradiction |].
    destruct (IH Hin) as (p & q & -> & Hp).
    exists (y :: p), q. split; [reflexivity |].
    intros [E | E]; [contradiction | auto].
Qed.

(** X13.  With no function registered, and neither the left parenthesis nor
    the empty string registered as an operator: when the tokens [l] are read
    to their end without an unmatched right parenthesis and leave no sign
    pending, [parse] gives for [l] enclosed in one more pair of parentheses
    what it gives for [l], the same sequence or the same error. *)
Theorem enclosing_parentheses_change_nothing :
  forall self l st,
    functions self = [] ->
    ~ In "(" (keys (operators self)) ->
    ~ In "" (keys (operators self)) ->
    run self l init = Return st ->
    truthy (sign st) = false ->
    parse self (Tokens ("(" :: l ++ [")"])) = parse self (Tokens l)
    /\ parse self (Tokens l) = Some (finish st).
Proof.
  intros self l st Hfun Hpara Hempty Hrun Hsign.
  assert (Hp : lookup (operators self) "(" = None).
  { destruct (lookup (operators self) "(") eqn:E; [| reflexivity].
    exfalso. apply Hpara. apply lookup_In_keys. eauto. }
  assert (Hnf : forall t, isFunction self t = false).
  { intros t. unfold isFunction. now rewrite Hfun. }
  assert (Hl : parse self (Tokens l) = Some (finish st)).
  { simpl. rewrite <- (app_nil_r l), parse_tokens_app, Hrun. reflexivity. }
  split; [| exact Hl]. rewrite Hl. simpl. f_equal.
  change (step self init "(")
    with (Return {| output := []; stack := ["("]; sign := None;
                    lastToken := Some "(" |}).
  cbn [bind]. rewrite parse_tokens_app.
  destruct (run_inside_para self Hp l init
              {| output := []; stack := ["("]; sign := None;
                 lastToken := Some "(" |} st) as (st' & Hrun' & Hin); trivial.
  { repeat split; auto. }
  rewrite Hrun'. cbn [bind parse_tokens].
  destruct Hin as (Ho & Hs & Hg & _).
  assert (Hne : ~ In "" (stack st)).
  { apply (run_stack_entries self) with (l := l) (st := init); trivial.
    - unfold op_tokens. rewrite Hfun, app_nil_r. exact Hempty.
    - simpl. tauto. }
  assert (Hstep : forall p q,
            stack st = p ++ q -> ~ In "(" p ->
            step self st' ")"
            = match close_para self (p ++ q ++ ["("]) (output st) with
              | Some (stk1, out1) =>
                  Return {| output := out1; stack := stk1; sign := sign st';
                            lastToken := Some ")" |}
              | None => Throw (SyntaxError "Too many closing parenthesis")
              end).
  { intros p q Hpq _. unfold step. cbn [String.eqb Ascii.eqb Bool.eqb].
    rewrite Hg. unfold dispatch, classify. simpl. rewrite Hnf.
    rewrite Ho, Hs, Hpq, <- app_assoc. rewrite Hg.
    destruct (sign st) as [[| c s] |]; try discriminate; reflexivity. }
  assert (Hfilter : forall p,
            filter (fun t => negb (isFunction self t)) p = p).
  { induction p as [| t p IH]; simpl; [reflexivity |].
    now rewrite Hnf, IH. }
  destruct (in_dec string_dec "(" (stack st)) as [Hyes | Hno].
  - destruct (first_occurrence "(" _ Hyes) as (p & q & Hpq & Hpno).
    rewrite (Hstep p ("(" :: q) Hpq Hpno).
    change (p ++ ("(" :: q) ++ ["("]) with (p ++ "(" :: (q ++ ["("])).
    rewrite close_para_prefix.
    + cbn [bind]. unfold finish. cbn [stack output]. rewrite Hfilter.
      assert (E1 : drain (q ++ ["("]) (output st ++ p)
                   = Throw (SyntaxError "Too many opening parenthesis")).
      { apply drain_Throw. split; [| reflexivity].
        apply in_or_app. right. now left. }
      assert (E2 : drain (stack st) (output st)
                   = Throw (SyntaxError "Too many opening parenthesis")).
      { apply drain_Throw. auto. }
      now rewrite E1, E2.
    + apply Forall_forall. intros x Hx. split; intros ->.
      * apply Hne. rewrite Hpq. apply in_or_app. now left.
      * contradiction.
  - rewrite (Hstep (stack st) [] (eq_sym (app_nil_r _)) Hno).
    cbn [app]. rewrite close_para_prefix.
    + cbn [bind]. unfold finish. cbn [stack output]. rewrite Hfilter.
      simpl. now rewrite drain_all.
    + apply Forall_forall. intros x Hx. split; intros ->; contradiction.
Qed.

Lemma enclosing_parentheses_change_nothing_witness :
  parse (default plain_host) (Tokens ("(" :: ["1"; "+"; "2"; "*"; "3"] ++ [")"]))
  = parse (default plain_host) (Tokens ["1"; "+"; "2"; "*"; "3"]).
Proof.
  apply (proj1 (enclosing_parentheses_change_nothing (default plain_host)
           ["1"; "+"; "2"; "*"; "3"]
           {| output := ["1"; "2"; "3"]; stack := ["*"; "+"]; sign := None;
              lastToken := Some "3" |}
           eq_refl
           ltac:(simpl; intuition discriminate)
           ltac:(simpl; intuition discriminate)
           eq_refl eq_refl)).
Defined.

(** ** Operators at the start and in a row *)

(** X14.  An operator that opens the input is no operator: whatever it is,
    it is put in front of the token that follows, and when the two together
    are a literal, [parse] returns that one literal; [resolve] gives its
    value when the literal names no property of [Object.prototype].
    Nothing is applied. *)
Theorem leading_operator_joins_the_literal :
  forall self o a d,
    operator_token self o d -> o <> "" -> a <> " " ->
    classify self (o ++ a)%string = Literal ->
    parse self (Tokens [o; a]) = Some (Return [(o ++ a)%string])
    /\ (inherited (o ++ a)%string = false ->
        resolve self (Tokens [o; a])
        = Some (Return (literal self (o ++ a)%string))).
Proof.
  intros self o a d (Hc & Hsp & _) Hne Ha Hlit.
  assert (Hp : parse self (Tokens [o; a]) = Some (Return [(o ++ a)%string])).
  { cbn [parse parse_tokens]. unfold step at 1.
    destruct (String.eqb_spec o " ") as [E | _]; [contradiction |].
    cbn [sign init]. unfold dispatch at 1. rewrite Hc.
    cbn [lastToken init truthy negb orb bind output stack].
    unfold step. destruct (String.eqb_spec a " ") as [E | _]; [contradiction |].
    cbn [sign]. destruct o as [| c o']; [contradiction |].
    unfold dispatch. rewrite Hlit. reflexivity. }
  split; [exact Hp |].
  intros Hi. unfold resolve. rewrite Hp. unfold resolveRpn. cbn [rpn_run].
  destruct (literal_unregistered self _ Hlit) as [Hlo Hlf].
  now rewrite (rpn_step_literal self [] _ Hlo Hlf Hi).
Qed.

Lemma leading_operator_joins_the_literal_witness :
  parse (default plain_host) (Tokens ["*"; "5"]) = Some (Return ["*5"])
  /\ resolve (default plain_host) (Tokens ["*"; "5"])
     = Some (Return (literal (default plain_host) "*5")).
Proof.
  destruct (leading_operator_joins_the_literal (default plain_host) "*" "5"
              {| name := "*"; precedence := 3; associativity := left;
                 params := 2;
                 method := fun args =>
                   js_mul plain_host (arg 0 args) (arg 1 args) |}
              ltac:(repeat split; discriminate)
              ltac:(discriminate) ltac:(discriminate) eq_refl)
    as [H1 H2].
  split; [exact H1 | exact (H2 eq_refl)].
Defined.

(** X15.  An operator that follows another operator is not taken as a
    sign: for operands [a], [b] and operators [o1], [o2], [parse] turns
    [a o1 o2 b] into [a o1 b o2] when [o2] yields to [o1] and into
    [a b o2 o1] otherwise, so that one of the two operators is later
    applied with an operand short. *)
Theorem operator_after_operator_is_not_a_sign :
  forall self a o1 o2 b d1 d2,
    operand self a -> operand self b ->
    operator_token self o1 d1 -> o1 <> "" ->
    operator_token self o2 d2 ->
    parse self (Tokens [a; o1; o2; b])
    = Some (Return
        (if (leftAssoc d2 && lessThenEqual d2 d1) || lessThen d2 d1
         then [a; o1; b; o2] else [a; b; o2; o1])).
Proof.
  intros self a o1 o2 b d1 d2 Ha Hb Ho1 Hne1 Ho2.
  destruct (operand_not_para self a Ha) as [Ha1 Ha2].
  destruct (operator_token_isOperator self o1 d1 Ho1) as (Hi1 & Hp1 & _).
  destruct (operator_token_isOperator self o2 d2 Ho2) as (Hi2 & Hp2 & _).
  assert (Hl1 : lookup (operators self) o1 = Some d1) by apply Ho1.
  assert (Hl2 : lookup (operators self) o2 = Some d2) by apply Ho2.
  assert (Hq1 : o1 <> "(").
  { intros ->. discriminate. }
  cbn [parse parse_tokens].
  rewrite (step_operand_new self init a Ha eq_refl eq_refl). cbn [bind].
  rewrite (step_operator_after_operand self _ o1 a d1 Ho1);
    [| reflexivity | reflexivity | exact Ha1 | exact Ha2].
  cbn [bind output stack sign init app pop_operators fst snd].
  rewrite (step_operator_after_operand self _ o2 o1 d2 Ho2);
    [| reflexivity | reflexivity | exact Hne1 | exact Hq1].
  cbn [bind output stack sign pop_operators]. rewrite Hl1, Hl2.
  destruct ((leftAssoc d2 && lessThenEqual d2 d1) || lessThen d2 d1);
    cbn [fst snd app];
    (rewrite (step_operand_new self _ b Hb);
     [| reflexivity
      | cbn [lastToken]; rewrite Hi2; now rewrite !orb_true_r]);
    cbn [bind]; unfold finish; simpl; now rewrite ?Hp1, ?Hp2.
Qed.

Lemma operator_after_operator_is_not_a_sign_witness :
  parse (default plain_host) (Tokens ["2"; "*"; "-"; "3"])
  = Some (Return ["2"; "*"; "3"; "-"]).
Proof.
  apply (operator_after_operator_is_not_a_sign (default plain_host)
           "2" "*" "-" "3"
           {| name := "*"; precedence := 3; associativity := left;
              params := 2;
              method := fun args =>
                js_mul plain_host (arg 0 args) (arg 1 args) |}
           {| name := "-"; precedence := 2; associativity := left;
              params := 2;
              method := fun args =>
                js_sub plain_host (arg 0 args) (arg 1 args) |}
           ltac:(repeat split; discriminate)
           ltac:(repeat split; discriminate)
           ltac:(repeat split; discriminate)
           ltac:(discriminate)
           ltac:(repeat split; discriminate)).
Defined.

(** ** The scan keeps the text *)

Lemma prefix_drop :
  forall t rest,
    String.prefix t rest = true ->
    rest = (t ++ drop (String.length t) rest)%string.
Proof.
  induction t as [| d t IH]; intros rest H; [reflexivity |].
  destruct rest as [| c r]; simpl in H; [discriminate |].
  destruct (ascii_dec d c) as [-> | _]; [| discriminate].
  simpl. f_equal. now apply IH.
Qed.

Lemma next_token_drop (nits : list string) (rest : string) :
  rest = (next_token nits rest
          ++ drop (String.length (next_token nits rest)) rest)%string.
Proof.
  unfold next_token.
  destruct (find_symbol nits rest) as [nit |] eqn:Hf.
  - apply prefix_drop. now apply find_symbol_prefix in Hf.
  - now destruct rest.
Qed.

(** X16.  The scan of a string loses nothing: the tokens it reads off,
    put end to end, are the string. *)
Theorem scanned_tokens_make_up_the_string :
  forall fuel nits s l,
    scan fuel nits s = Some l ->
    fold_right String.append EmptyString l = s.
Proof.
  induction fuel as [| fuel IH]; intros nits [| c r] l H; simpl in H.
  - now injection H as <-.
  - discriminate.
  - now injection H as <-.
  - destruct (scan fuel nits _) as [l' |] eqn:Hl; [| discriminate].
    injection H as <-. cbn [fold_right]. rewrite (IH _ _ _ Hl).
    symmetry. apply next_token_drop.
Qed.

Lemma scanned_tokens_make_up_the_string_witness :
  fold_right String.append EmptyString ["1"; "<"; "="; "2"] = "1<=2".
Proof.
  apply (scanned_tokens_make_up_the_string 4 (op_tokens comparisons) "1<=2").
  reflexivity.
Defined.
